(** * zod-cast: tolerant JSON extraction, the retry tunnel and the stream validator

    A shallow embedding of [src/internal/json.ts], [src/index.ts] and
    [src/stream.ts], followed by the properties stated about them.

    Conventions of the embedding:
    - a JavaScript string is the list of its UTF-16 code units ([jsstring]);
    - JavaScript integers (indices, counters, option values) are [Z];
    - [JSON.parse] and the zod schema are interfaces ([JsonDecoder],
      [ZodSchema]): the library code is written against them and nothing about
      their internals is assumed beyond being functions of their argument;
    - the caller-supplied runner is a terminating interaction with the
      [injectSchema] helper, ending by resolving to raw text or by rejecting. *)

From Stdlib Require Import String Ascii DecimalString.
From Stdlib Require Import List ZArith NArith Bool Lia.
Import ListNotations.

Local Open Scope Z_scope.

(** ** JavaScript strings *)

Module JsString.

Definition char := N.
Definition jsstring := list char.

(** Literal: every character of an ASCII Rocq string as one code unit. *)
Fixpoint lit (s : string) : jsstring :=
  match s with
  | EmptyString => []
  | String c r => N_of_ascii c :: lit r
  end.

(** Same, with the apostrophe standing for the double quote (code unit 34). *)
Definition litq (s : string) : jsstring :=
  map (fun c => if N.eqb c 39 then 34%N else c) (lit s).

Definition LF : jsstring := [10%N].

Definition isEmpty (s : jsstring) : bool :=
  match s with [] => true | _ :: _ => false end.

(** [s.length] *)
Definition jslength (s : jsstring) : Z := Z.of_nat (length s).

(** ECMAScript WhiteSpace and LineTerminator code points, the ones
    [String.prototype.trim] strips. *)
Definition isWhiteSpace (c : char) : bool :=
  existsb (N.eqb c)
    [9; 10; 11; 12; 13; 32; 160; 5760; 8232; 8233; 8239; 8287; 12288; 65279]%N
  || (N.leb 8192 c && N.leb c 8202).

Fixpoint trimStart (s : jsstring) : jsstring :=
  match s with
  | [] => []
  | c :: r => if isWhiteSpace c then trimStart r else s
  end.

Definition trimEnd (s : jsstring) : jsstring := rev (trimStart (rev s)).

(** [s.trim()] *)
Definition trim (s : jsstring) : jsstring := trimEnd (trimStart s).

(** [s.slice(start, end)]: negative arguments count from the end, both are
    clamped to the string, and an empty range gives the empty string. *)
Definition slice (s : jsstring) (istart iend : Z) : jsstring :=
  let len := jslength s in
  let from := if istart <? 0 then Z.max (len + istart) 0 else Z.min istart len in
  let to := if iend <? 0 then Z.max (len + iend) 0 else Z.min iend len in
  firstn (Z.to_nat (to - from)) (skipn (Z.to_nat from) s).

Fixpoint indexOf_from (s : jsstring) (c : char) (i : Z) : Z :=
  match s with
  | [] => -1
  | x :: r => if N.eqb x c then i else indexOf_from r c (i + 1)
  end.

(** [s.indexOf(c)] for a one-character search string: first index or -1. *)
Definition indexOf (s : jsstring) (c : char) : Z := indexOf_from s c 0.

(** [parts.join(sep)] *)
Fixpoint join (sep : jsstring) (parts : list jsstring) : jsstring :=
  match parts with
  | [] => []
  | [p] => p
  | p :: rest => p ++ sep ++ join sep rest
  end.

Fixpoint startsWith (s prefix : jsstring) : bool :=
  match prefix, s with
  | [], _ => true
  | _ :: _, [] => false
  | p :: prefix', c :: s' => N.eqb c p && startsWith s' prefix'
  end.

(** [s.includes(needle)] *)
Fixpoint includes (s needle : jsstring) : bool :=
  startsWith s needle ||
  match s with
  | [] => false
  | _ :: r => includes r needle
  end.

(** Number to string for an integer: its decimal digits (what a template
    literal produces for integers below 10^21 in magnitude). *)
Definition numToString (z : Z) : jsstring :=
  lit (NilEmpty.string_of_int (Z.to_int z)).

End JsString.

Import JsString.

Declare Scope js_scope.
Delimit Scope js_scope with js.
Notation "a +++ b" := (@app char a b) (at level 60, right associativity) : js_scope.
Local Open Scope js_scope.

(** ** src/internal/json.ts *)

Module Json.

(** The platform's JSON decoder: [JSON_parse s] is [inl v] when
    [JSON.parse(s)] returns [v], and [inr m] when it throws a [SyntaxError]
    whose message is [m]. [js_undefined] is the value [undefined]. *)
Class JsonDecoder := {
  JsValue : Type;
  js_undefined : JsValue;
  JSON_parse : jsstring -> JsValue + jsstring
}.

Inductive FailReason := no_json | invalid_json.

(** [JsonExtractionResult] *)
Inductive JsonExtractionResult `{JsonDecoder} :=
| ExtractOk (jsonText : jsstring) (value : JsValue)
| ExtractFail (reason : FailReason) (message : jsstring) (jsonText : option jsstring).

Definition QUOTE : char := 34%N.
Definition BACKSLASH : char := 92%N.
Definition LBRACE : char := 123%N.
Definition RBRACE : char := 125%N.
Definition LBRACKET : char := 91%N.
Definition RBRACKET : char := 93%N.

(** [findJsonStartIndex] *)
Definition findJsonStartIndex (text : jsstring) : option Z :=
  let obj := indexOf text LBRACE in
  let arr := indexOf text LBRACKET in
  if (obj =? -1) && (arr =? -1) then None
  else if obj =? -1 then Some arr
  else if arr =? -1 then Some obj
  else Some (Z.min obj arr).

(** The [for] loop of [extractJsonText]. [rest] is the part of [text] from
    index [i] on, so [text[i]] is its head and the loop ends when it is
    empty ([i < text.length] fails). *)
Fixpoint extractJsonText_loop (text : jsstring) (start : Z)
    (rest : jsstring) (i : Z) (inString escaped : bool) (depth : Z)
  : option jsstring :=
  match rest with
  | [] => None
  | ch :: rest' =>
    if inString then
      if escaped then
        extractJsonText_loop text start rest' (i + 1) inString false depth
      else if N.eqb ch BACKSLASH then
        extractJsonText_loop text start rest' (i + 1) inString true depth
      else if N.eqb ch QUOTE then
        extractJsonText_loop text start rest' (i + 1) false escaped depth
      else
        extractJsonText_loop text start rest' (i + 1) inString escaped depth
    else if N.eqb ch QUOTE then
      extractJsonText_loop text start rest' (i + 1) true escaped depth
    else if N.eqb ch LBRACE || N.eqb ch LBRACKET then
      extractJsonText_loop text start rest' (i + 1) inString escaped (depth + 1)
    else if N.eqb ch RBRACE || N.eqb ch RBRACKET then
      let depth' := depth - 1 in
      if depth' =? 0 then Some (slice text start (i + 1))
      else extractJsonText_loop text start rest' (i + 1) inString escaped depth'
    else
      extractJsonText_loop text start rest' (i + 1) inString escaped depth
  end.

(** [extractJsonText] *)
Definition extractJsonText (text : jsstring) : option jsstring :=
  match findJsonStartIndex text with
  | None => None
  | Some start =>
    extractJsonText_loop text start (skipn (Z.to_nat start) text) start false false 0
  end.

(** [extractAndParseJson]. The test [!jsonText] is true for [null] and for
    the empty string. *)
Definition extractAndParseJson `{JsonDecoder} (text : jsstring) : JsonExtractionResult :=
  match extractJsonText text with
  | None => ExtractFail no_json (lit "No JSON object/array found in model output.") None
  | Some jsonText =>
    if isEmpty jsonText then
      ExtractFail no_json (lit "No JSON object/array found in model output.") None
    else
      match JSON_parse jsonText with
      | inl value => ExtractOk jsonText value
      | inr message => ExtractFail invalid_json message (Some jsonText)
      end
  end.

(** *** The scan, one character at a time

    The state the scan keeps and its change on one character: inside a
    string literal a set escape flag is cleared by any character, a backslash
    sets it and a quote leaves the literal; outside, a quote enters a
    literal, an opener raises the depth and a closer lowers it. *)
Record ScanState := { inString : bool; escaped : bool; depth : Z }.

Definition scanStart : ScanState :=
  {| inString := false; escaped := false; depth := 0 |}.

Definition isOpener (ch : char) : bool := N.eqb ch LBRACE || N.eqb ch LBRACKET.
Definition isCloser (ch : char) : bool := N.eqb ch RBRACE || N.eqb ch RBRACKET.

Definition scanStep (st : ScanState) (ch : char) : ScanState :=
  if inString st then
    if escaped st then {| inString := true; escaped := false; depth := depth st |}
    else if N.eqb ch BACKSLASH then {| inString := true; escaped := true; depth := depth st |}
    else if N.eqb ch QUOTE then {| inString := false; escaped := false; depth := depth st |}
    else st
  else if N.eqb ch QUOTE then {| inString := true; escaped := escaped st; depth := depth st |}
  else if isOpener ch then {| inString := false; escaped := escaped st; depth := depth st + 1 |}
  else if isCloser ch then {| inString := false; escaped := escaped st; depth := depth st - 1 |}
  else st.

(** The state after the characters at indices [start] to [i], inclusive. *)
Definition scanned (text : jsstring) (start i : Z) : ScanState :=
  fold_left scanStep (slice text start (i + 1)) scanStart.

Definition depthAt (text : jsstring) (start i : Z) : Z := depth (scanned text start i).

Definition charAt (text : jsstring) (i : Z) : option char :=
  if i <? 0 then None else nth_error text (Z.to_nat i).

Definition noOpener (text : jsstring) : Prop :=
  forall ch, In ch text -> isOpener ch = false.

(** [start] is the index of the first brace or bracket opener of [text]. *)
Definition firstOpenerAt (text : jsstring) (start : Z) : Prop :=
  (exists ch, charAt text start = Some ch /\ isOpener ch = true) /\
  (forall j ch, 0 <= j < start -> charAt text j = Some ch -> isOpener ch = false).

(** [i] is the first index from [start] on where the depth is back to zero. *)
Definition closesAt (text : jsstring) (start i : Z) : Prop :=
  start <= i < jslength text /\
  depthAt text start i = 0 /\
  (forall j, start <= j < i -> depthAt text start j <> 0).

Definition neverCloses (text : jsstring) (start : Z) : Prop :=
  forall i, start <= i < jslength text -> depthAt text start i <> 0.

(** The loop of [extractJsonText] seen through [scanStep]: the offset in
    [rest] of the first closer met outside a string literal that brings the
    depth to zero. *)
Definition closesHere (st : ScanState) (ch : char) : bool :=
  negb (inString st) && isCloser ch && (depth st - 1 =? 0).

Fixpoint firstClose (st : ScanState) (rest : jsstring) : option nat :=
  match rest with
  | [] => None
  | ch :: rest' =>
    if closesHere st ch then Some O
    else option_map Datatypes.S (firstClose (scanStep st ch) rest')
  end.

(** A path element of a zod issue: an object key or an array index. *)
Inductive PathSeg := PKey (k : jsstring) | PIndex (i : Z).

Record ZodIssue := { issue_path : list PathSeg; issue_message : jsstring }.

Definition pathSegToString (p : PathSeg) : jsstring :=
  match p with PKey k => k | PIndex i => numToString i end.

(** [formatZodIssues], on the issue list of the error. *)
Definition formatZodIssues (issues : list ZodIssue) : jsstring :=
  let lines := map (fun issue =>
    let path := match issue_path issue with
                | [] => lit "<root>"
                | _ :: _ => join (lit ".") (map pathSegToString (issue_path issue))
                end in
    lit "- " +++ path +++ lit ": " +++ issue_message issue) issues in
  join LF lines.

End Json.

Import Json.

(** ** The zod schema, as the library uses it *)

Module Zod.

(** A schema offers [safeParse] (accepted output, or the issues of the
    [ZodError]) and enough introspection for [zodSchemaToTypeScript] to render
    it under a given type name. *)
Class ZodSchema `{JsonDecoder} := {
  Output : Type;
  safeParse : JsValue -> Output + list ZodIssue;
  zodSchemaToTypeScript : jsstring -> jsstring
}.

(** [schema.parse(v)]: zod returns the data of [safeParse(v)] on success and
    throws its error otherwise; [inr] is the thrown [ZodError]. *)
Definition parse `{ZodSchema} (v : JsValue) : Output + list ZodIssue := safeParse v.

End Zod.

Import Zod.

(** ** src/index.ts *)

Module Tunnel.

(** [TunnelOptions]; [None] is an option left out. *)
Record TunnelOptions := {
  maxRetries : option Z;
  systemPrompt : option jsstring;
  schemaName : option jsstring;
  maxFailureOutputChars : option Z
}.

(** [TunnelFailure]. The record built for a failed extraction copies
    [extracted.jsonText], which is absent for [no_json]. *)
Inductive TunnelFailure :=
| FailNoJson (message raw : jsstring)
| FailInvalidJson (message raw : jsstring) (jsonText : option jsstring)
| FailSchema (message raw jsonText issues : jsstring).

Definition failure_message (f : TunnelFailure) : jsstring :=
  match f with
  | FailNoJson m _ | FailInvalidJson m _ _ | FailSchema m _ _ _ => m
  end.

Definition failure_raw (f : TunnelFailure) : jsstring :=
  match f with
  | FailNoJson _ r | FailInvalidJson _ r _ | FailSchema _ r _ _ => r
  end.

(** [TunnelRunContext] *)
Record TunnelRunContext := {
  ctx_attempt : Z;
  ctx_maxRetries : Z;
  ctx_lastFailure : option TunnelFailure
}.

(** Which [injectSchema] closure the runner calls: the one in the helpers of
    the current invocation, or the one it was handed on attempt 0 and kept.
    A closure captures the [attempt] of its iteration and shares
    [lastFailure] and [originalPromptIntent] with the loop; since [attempt]
    is only compared with 0, a closure kept from an attempt above 0 behaves
    as the current one. *)
Inductive HelperRef := CurrentHelper | FirstAttemptHelper.

Definition capturedAttempt (h : HelperRef) (attempt : Z) : Z :=
  match h with CurrentHelper => attempt | FirstAttemptHelper => 0 end.

(** One invocation of the runner: it calls [injectSchema] any number of
    times, each time continuing with the prompt it got back, and ends by
    resolving to raw text or by rejecting with an error. [S] is whatever
    state the runner keeps between invocations. *)
Inductive RunnerSteps (S E : Type) :=
| Resolve (raw : jsstring) (s : S)
| Reject (err : E) (s : S)
| CallInjectSchema (h : HelperRef) (userPrompt : jsstring)
                   (k : jsstring -> RunnerSteps S E).
Arguments Resolve {S E}.
Arguments Reject {S E}.
Arguments CallInjectSchema {S E}.

(** [TunnelRunner] *)
Definition TunnelRunner (S E : Type) := S -> TunnelRunContext -> RunnerSteps S E.

(** What the run records about one call of [injectSchema] ... *)
Record InjectCall := {
  call_helper : HelperRef;
  call_userPrompt : jsstring;
  call_prompt : jsstring
}.

(** ... and about how an invocation of the runner ended. [HelperTypeError] is
    [buildFixPrompt] dereferencing a null [lastFailure]. *)
Inductive AttemptEnd (E : Type) :=
| Resolved (raw : jsstring)
| Rejected (err : E)
| HelperTypeError.
Arguments Resolved {E}.
Arguments Rejected {E}.
Arguments HelperTypeError {E}.

Record AttemptLog (E : Type) := {
  log_context : TunnelRunContext;
  log_calls : list InjectCall;
  log_end : AttemptEnd E
}.
Arguments log_context {E}.
Arguments log_calls {E}.
Arguments log_end {E}.

(** The variables of one [run], and the log of what happened so far. *)
Record RunState (S E : Type) := {
  st_failures : list TunnelFailure;
  st_lastFailure : option TunnelFailure;
  st_originalPromptIntent : jsstring;
  st_attempt : Z;
  st_runner : S;
  st_log : list (AttemptLog E)
}.
Arguments st_failures {S E}.
Arguments st_lastFailure {S E}.
Arguments st_originalPromptIntent {S E}.
Arguments st_attempt {S E}.
Arguments st_runner {S E}.
Arguments st_log {S E}.

(** How the promise returned by [run] settles. *)
Inductive RunOutcome `{ZodSchema} (E : Type) :=
| Fulfilled (validated : Output)
| TunnelMaxRetriesError (message : jsstring) (failures : list TunnelFailure)
| RunnerError (err : E)
| ZodError (issues : list ZodIssue)
| TypeError.
Arguments Fulfilled {_ _ E}.
Arguments TunnelMaxRetriesError {_ _ E}.
Arguments RunnerError {_ _ E}.
Arguments ZodError {_ _ E}.
Arguments TypeError {_ _ E}.

Section CreateTunnel.

Context `{schema : ZodSchema}.
Variable options : TunnelOptions.

Definition maxRetriesOf : Z :=
  match maxRetries options with Some m => m | None => 2 end.

Definition schemaNameOf : jsstring :=
  match schemaName options with Some n => n | None => lit "Output" end.

Definition schemaTs : jsstring := zodSchemaToTypeScript schemaNameOf.

Definition STRICT_RULES : jsstring :=
  join LF
    [ lit "Return ONLY a valid JSON value that can be parsed by JSON.parse().";
      lit "Do not wrap the JSON in Markdown fences.";
      lit "The JSON MUST conform to this TypeScript definition:";
      lit "```ts" +++ LF +++ schemaTs +++ LF +++ lit "```" ].

(** [if (options.systemPrompt?.trim()) parts.push(options.systemPrompt.trim())] *)
Definition systemPromptParts : list jsstring :=
  match systemPrompt options with
  | Some s => if isEmpty (trim s) then [] else [trim s]
  | None => []
  end.

Definition buildBasePrompt (userPrompt : jsstring) : jsstring :=
  join (LF +++ LF)
    (systemPromptParts
     ++ [STRICT_RULES]
     ++ (if isEmpty (trim userPrompt) then [] else [trim userPrompt])).

Definition maxFailureOutputCharsOf : Z :=
  match maxFailureOutputChars options with Some m => m | None => 4000 end.

Definition truncate (s : jsstring) : jsstring :=
  let max := maxFailureOutputCharsOf in
  if jslength s <=? max then s
  else slice s 0 max +++ LF +++ lit "...<truncated>".

(** The [parts] array of [buildFixPrompt], piece by piece. *)
Definition schemaIssuesParts (failure : TunnelFailure) : list jsstring :=
  match failure with
  | FailSchema _ _ _ issues => [lit "Schema issues:" +++ LF +++ issues]
  | _ => []
  end.

Definition originalContextParts (userPrompt : jsstring) : list jsstring :=
  if isEmpty (trim userPrompt) then []
  else [lit "Original request context:" +++ LF +++ trim userPrompt].

Definition previousOutputPart (failure : TunnelFailure) : jsstring :=
  lit "Previous output:" +++ LF +++ lit "```text" +++ LF
  +++ truncate (failure_raw failure) +++ LF +++ lit "```".

Definition fixPromptParts (userPrompt : jsstring) (failure : TunnelFailure)
  : list jsstring :=
  systemPromptParts
  ++ [ lit "Your previous response was invalid.";
       lit "Return ONLY corrected JSON.";
       STRICT_RULES ]
  ++ [ lit "Validation problems:" +++ LF +++ failure_message failure ]
  ++ schemaIssuesParts failure
  ++ originalContextParts userPrompt
  ++ [ previousOutputPart failure ].

Definition buildFixPrompt (userPrompt : jsstring) (failure : TunnelFailure) : jsstring :=
  join (LF +++ LF) (fixPromptParts userPrompt failure).

Definition failureFromRaw (raw : jsstring) : option TunnelFailure :=
  match extractAndParseJson raw with
  | ExtractFail no_json message _ => Some (FailNoJson message raw)
  | ExtractFail invalid_json message jsonText => Some (FailInvalidJson message raw jsonText)
  | ExtractOk jsonText value =>
    match safeParse value with
    | inl _ => None
    | inr issues =>
      Some (FailSchema (lit "Output JSON did not match the schema.") raw jsonText
                       (formatZodIssues issues))
    end
  end.

(** The closure [injectSchema], with the variables it captures made
    explicit: [attempt] is the captured loop index, [lastFailure] and
    [originalPromptIntent] are the shared variables at the time of the call.
    The result is the returned prompt ([None]: the call throws because
    [lastFailure] is null) and the new [originalPromptIntent]. *)
Definition injectSchema (attempt : Z) (lastFailure : option TunnelFailure)
    (originalPromptIntent userPrompt : jsstring) : option jsstring * jsstring :=
  let trimmed := trim userPrompt in
  let originalPromptIntent' :=
    if (attempt =? 0) && negb (isEmpty trimmed) then trimmed
    else originalPromptIntent in
  let effectivePrompt := if attempt =? 0 then trimmed else originalPromptIntent' in
  ( if attempt =? 0 then Some (buildBasePrompt effectivePrompt)
    else option_map (buildFixPrompt effectivePrompt) lastFailure,
    originalPromptIntent' ).

Section Run.

Variables S E : Type.
Variable runner : TunnelRunner S E.

(** [await runner({ injectSchema, context })]: the runner's steps played
    against the closures. Gives the calls made, how the invocation ended, the
    runner's new state and the new [originalPromptIntent]. *)
Fixpoint invokeRunner (attempt : Z) (lastFailure : option TunnelFailure)
    (steps : RunnerSteps S E) (s : S) (originalPromptIntent : jsstring)
  : list InjectCall * AttemptEnd E * S * jsstring :=
  match steps with
  | Resolve raw s' => ([], Resolved raw, s', originalPromptIntent)
  | Reject err s' => ([], Rejected err, s', originalPromptIntent)
  | CallInjectSchema h userPrompt k =>
    match injectSchema (capturedAttempt h attempt) lastFailure
                       originalPromptIntent userPrompt with
    | (Some prompt, intent') =>
      let '(calls, ending, s', intent'') :=
        invokeRunner attempt lastFailure (k prompt) s intent' in
      ({| call_helper := h; call_userPrompt := userPrompt; call_prompt := prompt |}
         :: calls, ending, s', intent'')
    | (None, intent') => ([], HelperTypeError, s, intent')
    end
  end.

Inductive StepResult :=
| Continue (st : RunState S E)
| Settle (outcome : RunOutcome E) (st : RunState S E).

(** The body of the [for] loop of [run]. *)
Definition attemptBody (st : RunState S E) : StepResult :=
  let context := {| ctx_attempt := st_attempt st;
                    ctx_maxRetries := maxRetriesOf;
                    ctx_lastFailure := st_lastFailure st |} in
  let '(calls, ending, s', intent') :=
    invokeRunner (st_attempt st) (st_lastFailure st)
                 (runner (st_runner st) context) (st_runner st)
                 (st_originalPromptIntent st) in
  let st' := {| st_failures := st_failures st;
                st_lastFailure := st_lastFailure st;
                st_originalPromptIntent := intent';
                st_attempt := st_attempt st;
                st_runner := s';
                st_log := st_log st ++ [{| log_context := context;
                                            log_calls := calls;
                                            log_end := ending |}] |} in
  match ending with
  | Rejected err => Settle (RunnerError err) st'
  | HelperTypeError => Settle TypeError st'
  | Resolved raw =>
    match failureFromRaw raw with
    | None =>
      let extracted := extractAndParseJson raw in
      match parse (match extracted with
                   | ExtractOk _ value => value
                   | ExtractFail _ _ _ => js_undefined
                   end) with
      | inl validated => Settle (Fulfilled validated) st'
      | inr issues => Settle (ZodError issues) st'
      end
    | Some failure =>
      Continue {| st_failures := st_failures st ++ [failure];
                  st_lastFailure := Some failure;
                  st_originalPromptIntent := intent';
                  st_attempt := st_attempt st + 1;
                  st_runner := s';
                  st_log := st_log st' |}
    end
  end.

Definition maxRetriesMessage : jsstring :=
  lit "Failed to produce valid output after " +++ numToString (maxRetriesOf + 1)
  +++ lit " attempts.".

(** [for (let attempt = 0; attempt <= maxRetries; attempt++) { ... } throw ...];
    [fuel] is the number of iterations left. *)
Fixpoint runLoop (fuel : nat) (st : RunState S E) : RunOutcome E * RunState S E :=
  match fuel with
  | O => (TunnelMaxRetriesError maxRetriesMessage (st_failures st), st)
  | Datatypes.S fuel' =>
    match attemptBody st with
    | Continue st' => runLoop fuel' st'
    | Settle outcome st' => (outcome, st')
    end
  end.

Definition initialState (s0 : S) : RunState S E :=
  {| st_failures := [];
     st_lastFailure := None;
     st_originalPromptIntent := [];
     st_attempt := 0;
     st_runner := s0;
     st_log := [] |}.

(** [run] *)
Definition run (s0 : S) : RunOutcome E * RunState S E :=
  runLoop (Z.to_nat (maxRetriesOf + 1)) (initialState s0).

(** The loop state at the start of attempt [k], when the run gets there. *)
Fixpoint stateAt (k : nat) (st : RunState S E) : option (RunState S E) :=
  match k with
  | O => Some st
  | Datatypes.S k' =>
    match attemptBody st with
    | Continue st' => stateAt k' st'
    | Settle _ _ => None
    end
  end.

(** *** The run without the second extraction

    The reading of the design notes: the value validated by the first
    extraction is the one returned, and nothing is parsed twice.
    [validateRaw] is [failureFromRaw] keeping the validated value. *)
Definition validateRaw (raw : jsstring) : TunnelFailure + Output :=
  match extractAndParseJson raw with
  | ExtractFail no_json message _ => inl (FailNoJson message raw)
  | ExtractFail invalid_json message jsonText => inl (FailInvalidJson message raw jsonText)
  | ExtractOk jsonText value =>
    match safeParse value with
    | inl validated => inr validated
    | inr issues =>
      inl (FailSchema (lit "Output JSON did not match the schema.") raw jsonText
                      (formatZodIssues issues))
    end
  end.

Definition attemptBody_reuse (st : RunState S E) : StepResult :=
  let context := {| ctx_attempt := st_attempt st;
                    ctx_maxRetries := maxRetriesOf;
                    ctx_lastFailure := st_lastFailure st |} in
  let '(calls, ending, s', intent') :=
    invokeRunner (st_attempt st) (st_lastFailure st)
                 (runner (st_runner st) context) (st_runner st)
                 (st_originalPromptIntent st) in
  let st' := {| st_failures := st_failures st;
                st_lastFailure := st_lastFailure st;
                st_originalPromptIntent := intent';
                st_attempt := st_attempt st;
                st_runner := s';
                st_log := st_log st ++ [{| log_context := context;
                                            log_calls := calls;
                                            log_end := ending |}] |} in
  match ending with
  | Rejected err => Settle (RunnerError err) st'
  | HelperTypeError => Settle TypeError st'
  | Resolved raw =>
    match validateRaw raw with
    | inr validated => Settle (Fulfilled validated) st'
    | inl failure =>
      Continue {| st_failures := st_failures st ++ [failure];
                  st_lastFailure := Some failure;
                  st_originalPromptIntent := intent';
                  st_attempt := st_attempt st + 1;
                  st_runner := s';
                  st_log := st_log st' |}
    end
  end.

Fixpoint runLoop_reuse (fuel : nat) (st : RunState S E) : RunOutcome E * RunState S E :=
  match fuel with
  | O => (TunnelMaxRetriesError maxRetriesMessage (st_failures st), st)
  | Datatypes.S fuel' =>
    match attemptBody_reuse st with
    | Continue st' => runLoop_reuse fuel' st'
    | Settle outcome st' => (outcome, st')
    end
  end.

Definition run_reuse (s0 : S) : RunOutcome E * RunState S E :=
  runLoop_reuse (Z.to_nat (maxRetriesOf + 1)) (initialState s0).

End Run.

End CreateTunnel.

Arguments invokeRunner {_ _} options {S E} attempt lastFailure steps s originalPromptIntent.
Arguments Continue {_ _ S E}.
Arguments Settle {_ _ S E}.
Arguments attemptBody {_ _} options {S E} runner st.
Arguments runLoop {_ _} options {S E} runner fuel st.
Arguments initialState {S E} s0.
Arguments run {_ _} options {S E} runner s0.
Arguments stateAt {_ _} options {S E} runner k st.
Arguments attemptBody_reuse {_ _} options {S E} runner st.
Arguments runLoop_reuse {_ _} options {S E} runner fuel st.
Arguments run_reuse {_ _} options {S E} runner s0.

(** *** Reading a run

    The invocation of the runner that attempt [st] makes: the calls of
    [injectSchema] in it and how it ends. *)
Section Reading.

Context `{schema : ZodSchema}.
Variable options : TunnelOptions.
Variables S E : Type.
Variable runner : TunnelRunner S E.

Definition invocationAt (st : RunState S E)
  : list InjectCall * AttemptEnd E * S * jsstring :=
  invokeRunner options (st_attempt st) (st_lastFailure st)
    (runner (st_runner st)
            {| ctx_attempt := st_attempt st;
               ctx_maxRetries := maxRetriesOf options;
               ctx_lastFailure := st_lastFailure st |})
    (st_runner st) (st_originalPromptIntent st).

Definition callsAt (st : RunState S E) : list InjectCall :=
  fst (fst (fst (invocationAt st))).

Definition endingAt (st : RunState S E) : AttemptEnd E :=
  snd (fst (fst (invocationAt st))).

(** The state once the invocation of attempt [st] is over and logged, and
    the state with which the next iteration starts after [failure]. *)
Definition afterInvocation (st : RunState S E) : RunState S E :=
  {| st_failures := st_failures st;
     st_lastFailure := st_lastFailure st;
     st_originalPromptIntent := snd (invocationAt st);
     st_attempt := st_attempt st;
     st_runner := snd (fst (invocationAt st));
     st_log := st_log st
               ++ [{| log_context := {| ctx_attempt := st_attempt st;
                                        ctx_maxRetries := maxRetriesOf options;
                                        ctx_lastFailure := st_lastFailure st |};
                      log_calls := callsAt st;
                      log_end := endingAt st |}] |}.

Definition afterFailure (st : RunState S E) (failure : TunnelFailure) : RunState S E :=
  {| st_failures := st_failures st ++ [failure];
     st_lastFailure := Some failure;
     st_originalPromptIntent := snd (invocationAt st);
     st_attempt := st_attempt st + 1;
     st_runner := snd (fst (invocationAt st));
     st_log := st_log (afterInvocation st) |}.

(** The failure an attempt of the log contributed, if any. *)
Definition logFailure (l : AttemptLog E) : option TunnelFailure :=
  match log_end l with
  | Resolved raw => failureFromRaw raw
  | _ => None
  end.

End Reading.

Arguments invocationAt {_ _} options {S E} runner st.
Arguments callsAt {_ _} options {S E} runner st.
Arguments endingAt {_ _} options {S E} runner st.
Arguments logFailure {_ _ E} l.
Arguments afterInvocation {_ _} options {S E} runner st.
Arguments afterFailure {_ _} options {S E} runner st failure.

(** The texts given to the closure of attempt 0, by the calls [calls] of
    attempt [attempt] and over a whole log. *)
Definition firstHelperTexts (attempt : Z) (calls : list InjectCall) : list jsstring :=
  map call_userPrompt
      (filter (fun c => capturedAttempt (call_helper c) attempt =? 0) calls).

Definition firstHelperTextsOfLog {E : Type} (log : list (AttemptLog E)) : list jsstring :=
  flat_map (fun l => firstHelperTexts (ctx_attempt (log_context l)) (log_calls l)) log.

(** The trimmed text of the last of [texts] that is not empty once trimmed;
    the empty string when there is none. *)
Definition lastNonEmptyTrimmed (texts : list jsstring) : jsstring :=
  fold_left (fun acc u => if isEmpty (trim u) then acc else trim u) texts [].

(** What holds of the loop variables at the start of attempt [k]: the log
    has one entry per earlier attempt, numbered in order; each contributed
    the failure derived from its raw output; [lastFailure] is the last of
    them; the intent is the last non-empty trimmed text given to the closure
    of attempt 0. *)
Record RunInvariant `{ZodSchema} {S E : Type} (k : nat) (st : RunState S E) : Prop := {
  inv_attempt : st_attempt st = Z.of_nat k;
  inv_log_length : length (st_log st) = k;
  inv_failures : map Some (st_failures st) = map logFailure (st_log st);
  inv_lastFailure : st_lastFailure st = last (map Some (st_failures st)) None;
  inv_attempts :
    map (fun l => ctx_attempt (log_context l)) (st_log st) = map Z.of_nat (seq 0 k);
  inv_intent :
    st_originalPromptIntent st = lastNonEmptyTrimmed (firstHelperTextsOfLog (st_log st))
}.

End Tunnel.

(** ** src/stream.ts *)

Module Stream.

(** [StreamValidationResult] *)
Inductive StreamValidationResult `{ZodSchema} :=
| NoJsonYet (buffer : jsstring)
| InvalidJson (buffer message : jsstring) (jsonText : option jsstring)
| InvalidSchema (buffer message issues jsonText : jsstring)
| Valid (buffer : jsstring) (data : Output) (jsonText : jsstring).

Section CreateJsonStreamValidator.

Context `{schema : ZodSchema}.

(** [push], on the closure variable [buf]: the returned result and the new
    value of [buf]. *)
Definition push (buf chunk : jsstring) : StreamValidationResult * jsstring :=
  let buf := buf +++ chunk in
  match extractAndParseJson buf with
  | ExtractFail no_json _ _ => (NoJsonYet buf, buf)
  | ExtractFail invalid_json message jsonText => (InvalidJson buf message jsonText, buf)
  | ExtractOk jsonText value =>
    match safeParse value with
    | inr issues =>
      (InvalidSchema buf (lit "Output JSON did not match the schema.")
                     (formatZodIssues issues) jsonText, buf)
    | inl data => (Valid buf data jsonText, buf)
    end
  end.

(** [reset] *)
Definition reset (buf : jsstring) : jsstring := [].

(** [buffer] *)
Definition buffer (buf : jsstring) : jsstring := buf.

(** A use of one validator: the method calls made on it, in order, and what
    each returned. *)
Inductive Call := Push (chunk : jsstring) | Reset | Buffer.

Inductive Returned :=
| PushReturned (r : StreamValidationResult)
| ResetReturned
| BufferReturned (b : jsstring).

Fixpoint callAll (buf : jsstring) (calls : list Call) : list Returned * jsstring :=
  match calls with
  | [] => ([], buf)
  | Push chunk :: rest =>
    let '(r, buf') := push buf chunk in
    let '(rs, buf'') := callAll buf' rest in
    (PushReturned r :: rs, buf'')
  | Reset :: rest =>
    let '(rs, buf'') := callAll (reset buf) rest in
    (ResetReturned :: rs, buf'')
  | Buffer :: rest =>
    let '(rs, buf'') := callAll buf rest in
    (BufferReturned (buffer buf) :: rs, buf'')
  end.

(** [createJsonStreamValidator(schema)], then the calls: [buf] starts empty. *)
Definition createJsonStreamValidator (calls : list Call) : list Returned * jsstring :=
  callAll [] calls.

(** [validateJsonStream]: what the generator yields for the chunks. *)
Definition validateJsonStream (chunks : list jsstring) : list Returned :=
  fst (createJsonStreamValidator (map Push chunks)).

Definition isReset (c : Call) : bool :=
  match c with Reset => true | _ => false end.

(** The chunks pushed after the last [reset] of a call history. *)
Fixpoint chunksSinceReset (calls : list Call) : list jsstring :=
  match calls with
  | [] => []
  | c :: rest =>
    if existsb isReset rest then chunksSinceReset rest
    else match c with
         | Push chunk => chunk :: chunksSinceReset rest
         | _ => chunksSinceReset rest
         end
  end.

End CreateJsonStreamValidator.

End Stream.

(** ** Reference instances

    A decoder for the JSON grammar and the schema [z.object({ a: z.number() })]
    of the repository's tests, to run the library on concrete texts. *)

Module Reference.

(** A decoded value. A number is kept as its literal (no rounding to a
    double), an object as its members in source order. *)
#[local] Unset Elimination Schemes.
Inductive JValue :=
| JUndefined
| JNull
| JBool (b : bool)
| JNumber (literal : jsstring)
| JString (s : jsstring)
| JArray (elements : list JValue)
| JObject (members : list (jsstring * JValue)).
#[local] Set Elimination Schemes.

Definition isJsonSpace (c : char) : bool :=
  N.eqb c 32 || N.eqb c 9 || N.eqb c 10 || N.eqb c 13.

Fixpoint skipSpace (s : jsstring) : jsstring :=
  match s with
  | c :: r => if isJsonSpace c then skipSpace r else s
  | [] => []
  end.

Definition isDigit (c : char) : bool := N.leb 48 c && N.leb c 57.

Fixpoint digits (s : jsstring) : jsstring * jsstring :=
  match s with
  | c :: r => if isDigit c then let '(d, rest) := digits r in (c :: d, rest) else ([], s)
  | [] => ([], [])
  end.

Definition hexValue (c : char) : option N :=
  if isDigit c then Some (c - 48)%N
  else if N.leb 65 c && N.leb c 70 then Some (c - 55)%N
  else if N.leb 97 c && N.leb c 102 then Some (c - 87)%N
  else None.

(** The characters of a string literal after its opening quote. *)
Fixpoint stringBody (s : jsstring) : option (jsstring * jsstring) :=
  match s with
  | [] => None
  | c :: r =>
    if N.eqb c 34 then Some ([], r)
    else if N.ltb c 32 then None
    else if N.eqb c 92 then
      match r with
      | e :: r1 =>
        let simple (x : char) :=
          match stringBody r1 with Some (b, rest) => Some (x :: b, rest) | None => None end in
        if N.eqb e 34 then simple 34%N
        else if N.eqb e 92 then simple 92%N
        else if N.eqb e 47 then simple 47%N
        else if N.eqb e 98 then simple 8%N
        else if N.eqb e 102 then simple 12%N
        else if N.eqb e 110 then simple 10%N
        else if N.eqb e 114 then simple 13%N
        else if N.eqb e 116 then simple 9%N
        else if N.eqb e 117 then
          match r1 with
          | h1 :: h2 :: h3 :: h4 :: r2 =>
            match hexValue h1, hexValue h2, hexValue h3, hexValue h4, stringBody r2 with
            | Some a, Some b, Some c', Some d, Some (body, rest) =>
              Some ((a * 4096 + b * 256 + c' * 16 + d)%N :: body, rest)
            | _, _, _, _, _ => None
            end
          | _ => None
          end
        else None
      | [] => None
      end
    else
      match stringBody r with Some (b, rest) => Some (c :: b, rest) | None => None end
  end.

(** A number literal: an optional minus, an integer part without a leading
    zero (unless it is 0 alone), an optional fraction (a dot and at least one
    digit) and an optional exponent (e or E, an optional sign, at least one
    digit). *)
Definition numberLiteral (s : jsstring) : option (jsstring * jsstring) :=
  let '(sign, s1) :=
    match s with c :: r => if N.eqb c 45 then ([c], r) else ([], s) | [] => ([], s) end in
  let '(int, s2) := digits s1 in
  match int with
  | [] => None
  | d :: more =>
    if N.eqb d 48 && negb (isEmpty more) then None
    else
      let frac :=
        match s2 with
        | c :: r =>
          if N.eqb c 46 then
            match digits r with
            | ([], _) => None
            | (f, s3) => Some (c :: f, s3)
            end
          else Some ([], s2)
        | [] => Some ([], s2)
        end in
      match frac with
      | None => None
      | Some (f, s3) =>
        let expo :=
          match s3 with
          | c :: r =>
            if N.eqb c 101 || N.eqb c 69 then
              let '(esign, r1) :=
                match r with
                | x :: r' => if N.eqb x 43 || N.eqb x 45 then ([x], r') else ([], r)
                | [] => ([], r)
                end in
              match digits r1 with
              | ([], _) => None
              | (e, s4) => Some (c :: esign ++ e, s4)
              end
            else Some ([], s3)
          | [] => Some ([], s3)
          end in
        match expo with
        | None => None
        | Some (e, s4) => Some (sign ++ int ++ f ++ e, s4)
        end
      end
  end.

(** Recursive descent; every call uses one unit of [fuel]. [elementsFrom]
    and [membersFrom] start where an element or a member must begin. *)
Fixpoint valueFrom (fuel : nat) (s : jsstring) : option (JValue * jsstring) :=
  match fuel with
  | O => None
  | S fuel' =>
    match skipSpace s with
    | [] => None
    | c :: r =>
      if N.eqb c 123 then
        match skipSpace r with
        | x :: r' =>
          if N.eqb x 125 then Some (JObject [], r')
          else match membersFrom fuel' (x :: r') with
               | Some (ms, rest) => Some (JObject ms, rest)
               | None => None
               end
        | [] => None
        end
      else if N.eqb c 91 then
        match skipSpace r with
        | x :: r' =>
          if N.eqb x 93 then Some (JArray [], r')
          else match elementsFrom fuel' (x :: r') with
               | Some (es, rest) => Some (JArray es, rest)
               | None => None
               end
        | [] => None
        end
      else if N.eqb c 34 then
        match stringBody r with
        | Some (b, rest) => Some (JString b, rest)
        | None => None
        end
      else if startsWith (c :: r) (lit "true") then Some (JBool true, skipn 4 (c :: r))
      else if startsWith (c :: r) (lit "false") then Some (JBool false, skipn 5 (c :: r))
      else if startsWith (c :: r) (lit "null") then Some (JNull, skipn 4 (c :: r))
      else
        match numberLiteral (c :: r) with
        | Some (n, rest) => Some (JNumber n, rest)
        | None => None
        end
    end
  end
with elementsFrom (fuel : nat) (s : jsstring) : option (list JValue * jsstring) :=
  match fuel with
  | O => None
  | S fuel' =>
    match valueFrom fuel' s with
    | None => None
    | Some (v, rest) =>
      match skipSpace rest with
      | c :: r =>
        if N.eqb c 93 then Some ([v], r)
        else if N.eqb c 44 then
          match elementsFrom fuel' r with
          | Some (vs, rest') => Some (v :: vs, rest')
          | None => None
          end
        else None
      | [] => None
      end
    end
  end
with membersFrom (fuel : nat) (s : jsstring)
  : option (list (jsstring * JValue) * jsstring) :=
  match fuel with
  | O => None
  | S fuel' =>
    match skipSpace s with
    | q :: r0 =>
      if N.eqb q 34 then
        match stringBody r0 with
        | None => None
        | Some (key, r1) =>
          match skipSpace r1 with
          | colon :: r2 =>
            if N.eqb colon 58 then
              match valueFrom fuel' r2 with
              | None => None
              | Some (v, rest) =>
                match skipSpace rest with
                | c :: r =>
                  if N.eqb c 125 then Some ([(key, v)], r)
                  else if N.eqb c 44 then
                    match membersFrom fuel' r with
                    | Some (ms, rest') => Some ((key, v) :: ms, rest')
                    | None => None
                    end
                  else None
                | [] => None
                end
              end
            else None
          | [] => None
          end
        end
      else None
    | [] => None
    end
  end.

Definition decode (s : jsstring) : JValue + jsstring :=
  match valueFrom (2 * length s + 2) s with
  | Some (v, rest) =>
    if isEmpty (skipSpace rest) then inl v
    else inr (lit "Unexpected non-whitespace character after JSON")
  | None => inr (lit "Unexpected token in JSON")
  end.

#[export] Instance decoder : JsonDecoder :=
  {| JsValue := JValue; js_undefined := JUndefined; JSON_parse := decode |}.

Fixpoint eqs (a b : jsstring) : bool :=
  match a, b with
  | [], [] => true
  | x :: a', y :: b' => N.eqb x y && eqs a' b'
  | _, _ => false
  end.

(** The member an object has under [key]: the last one wins. *)
Fixpoint member (key : jsstring) (ms : list (jsstring * JValue)) : option JValue :=
  match ms with
  | [] => None
  | (k, v) :: rest =>
    match member key rest with
    | Some v' => Some v'
    | None => if eqs k key then Some v else None
    end
  end.

(** [z.object({ a: z.number() })]: accepts an object whose [a] is a number
    and outputs it stripped to that key. *)
Definition objectA_safeParse (v : JValue) : JValue + list ZodIssue :=
  match v with
  | JObject ms =>
    match member (lit "a") ms with
    | Some (JNumber n) => inl (JObject [(lit "a", JNumber n)])
    | Some _ =>
      inr [{| issue_path := [PKey (lit "a")]; issue_message := lit "Expected number" |}]
    | None =>
      inr [{| issue_path := [PKey (lit "a")]; issue_message := lit "Required" |}]
    end
  | _ => inr [{| issue_path := []; issue_message := lit "Expected object" |}]
  end.

#[export] Instance objectA : ZodSchema :=
  {| Output := JValue;
     safeParse := objectA_safeParse;
     zodSchemaToTypeScript name :=
       lit "export interface " +++ name +++ lit " {" +++ LF
       +++ lit "  a: number;" +++ LF +++ lit "}" |}.

End Reference.

(** ** Runs used as concrete cases

    Runners in the style of the integration tests, on the reference
    instances. They keep no state and reject with a message. *)

Module Scenarios.

Import Tunnel Reference.

Definition withOptions (retries : option Z) (maxChars : option Z) : TunnelOptions :=
  {| maxRetries := retries; systemPrompt := None; schemaName := None;
     maxFailureOutputChars := maxChars |}.

(** [injectSchema("Test"); return "not json"] *)
Definition neverJson : TunnelRunner unit jsstring :=
  fun s _ => CallInjectSchema CurrentHelper (lit "Test") (fun _ => Resolve (lit "not json") s).

(** The runner of the test about the locked intent: a different text on
    later attempts, a bad value first and a good one afterwards. *)
Definition changesIntent : TunnelRunner unit jsstring :=
  fun s context =>
    CallInjectSchema CurrentHelper
      (if ctx_attempt context =? 0 then lit "First intent" else lit "Different intent")
      (fun _ => if ctx_attempt context =? 0 then Resolve (litq "{'a': 'bad'}") s
                else Resolve (litq "{'a': 10}") s).


(** Prose with a bracketed note before the JSON object. *)
Definition noteThenObject : TunnelRunner unit jsstring :=
  fun s _ => CallInjectSchema CurrentHelper (lit "Extract")
               (fun _ => Resolve (litq "[x] {'a':1}") s).

(** A model that repeats the request instead of answering it. *)
Definition echoesRequest : TunnelRunner unit jsstring :=
  fun s _ => CallInjectSchema CurrentHelper (lit "Summarise this text")
               (fun _ => Resolve (lit "Summarise this text") s).

(** A long answer without JSON. *)
Definition longAnswer : TunnelRunner unit jsstring :=
  fun s _ => CallInjectSchema CurrentHelper (lit "Test") (fun _ => Resolve (lit "zzzzzzzz") s).

(** A runner that keeps the [injectSchema] of attempt 0 and calls it again
    on later attempts before the current one. *)
Definition keepsFirstHelper : TunnelRunner unit jsstring :=
  fun s context =>
    if ctx_attempt context =? 0 then
      CallInjectSchema CurrentHelper (lit "first text") (fun _ => Resolve (lit "no") s)
    else
      CallInjectSchema FirstAttemptHelper (lit "later text")
        (fun _ => CallInjectSchema CurrentHelper (lit "ignored")
                    (fun _ => Resolve (litq "{'a': 1}") s)).

(** The provider fails on the second attempt. *)
Definition failsSecond : TunnelRunner unit jsstring :=
  fun s context =>
    CallInjectSchema CurrentHelper (lit "Extract")
      (fun _ => if ctx_attempt context =? 0 then Resolve (lit "nope") s
                else Reject (lit "network down") s).

End Scenarios.

Import Tunnel Stream.

(** ** src/internal/zod-to-ts.ts

    A zod schema as [renderType] reads it: the type name and the fields of
    its [_def], its [description], and whether its [isOptional()] method
    exists and returns true. [JSON.stringify] is the platform's, on the
    values for which it returns a string. *)

Module ZodToTs.

Class JsonEncoder := {
  JsonValue : Type;
  ofString : jsstring -> JsonValue;
  JSON_stringify : JsonValue -> jsstring
}.

(** A value of the object of a native enum: a string or a number, or
    anything else. *)
Inductive NativeValue `{JsonEncoder} :=
| StringOrNumber (v : JsonValue)
| OtherValue.

(** [_def], by [typeName]. Lists are in the order the code enumerates them:
    [shape] is [Object.entries(def.shape())], the options of a discriminated
    union are [Array.from(def.options.values())]. [ZodOtherKind] is any type
    name [renderType] has no case for. *)
Inductive ZodDef `{JsonEncoder} (T : Type) :=
| ZodString | ZodNumber | ZodBoolean | ZodBigInt | ZodDate
| ZodNull | ZodUndefined | ZodAny | ZodUnknown | ZodNever
| ZodLiteral (value : JsonValue)
| ZodEnum (values : list jsstring)
| ZodNativeEnum (values : list NativeValue)
| ZodArray (type : T)
| ZodTuple (items : list T)
| ZodUnion (options : list T)
| ZodDiscriminatedUnion (options : list T)
| ZodIntersection (left right : T)
| ZodOptional (innerType : T)
| ZodNullable (innerType : T)
| ZodDefault (innerType : T)
| ZodEffects (schema : T)
| ZodRecord (keyType : option T) (valueType : T)
| ZodMap (keyType valueType : T)
| ZodObject (shape : list (jsstring * T))
| ZodOtherKind.

#[local] Unset Elimination Schemes.
Inductive ZodTypeAny `{JsonEncoder} :=
| Schema (description : option jsstring) (isOptionalMethod : bool)
         (def : ZodDef ZodTypeAny).
#[local] Set Elimination Schemes.

Section Render.

Context `{encoder : JsonEncoder}.

Definition def_of (schema : ZodTypeAny) : ZodDef ZodTypeAny :=
  match schema with Schema _ _ def => def end.

Definition description_of (schema : ZodTypeAny) : option jsstring :=
  match schema with Schema description _ _ => description end.

(** [isObjectSchema] *)
Definition isObjectSchema (schema : ZodTypeAny) : bool :=
  match def_of schema with ZodObject _ _ => true | _ => false end.

(** [isOptional] *)
Definition isOptional (schema : ZodTypeAny) : bool :=
  match schema with
  | Schema _ true _ => true
  | Schema _ false (ZodOptional _ _) => true
  | Schema _ false _ => false
  end.

(** [unwrapOptionalDefault]: the loop, as a recursion on the wrapped type. *)
Fixpoint unwrapOptionalDefault (schema : ZodTypeAny) : ZodTypeAny :=
  match schema with
  | Schema _ _ (ZodOptional _ innerType) => unwrapOptionalDefault innerType
  | Schema _ _ (ZodDefault _ innerType) => unwrapOptionalDefault innerType
  | _ => schema
  end.

(** [wrapIfUnion] *)
Definition wrapIfUnion (t : jsstring) : jsstring :=
  if includes t (lit " | ") then lit "(" +++ t +++ lit ")" else t.

Definition isIdentStart (c : char) : bool :=
  N.eqb c 36 || N.eqb c 95
  || (N.leb 65 c && N.leb c 90) || (N.leb 97 c && N.leb c 122).

Definition isIdentPart (c : char) : bool :=
  isIdentStart c || (N.leb 48 c && N.leb c 57).

(** [safeKey]: the key itself when it matches
    [/^[$A-Z_][0-9A-Z_$]*$/i], its JSON string otherwise. *)
Definition safeKey (key : jsstring) : jsstring :=
  match key with
  | c :: rest =>
    if isIdentStart c && forallb isIdentPart rest then key
    else JSON_stringify (ofString key)
  | [] => JSON_stringify (ofString key)
  end.

(** [withDescription] *)
Definition withDescription (type : jsstring) (schema : ZodTypeAny) : jsstring := type.

(** [s.repeat(n)] *)
Fixpoint repeatString (s : jsstring) (n : nat) : jsstring :=
  match n with
  | O => []
  | S n' => s +++ repeatString s n'
  end.

(** [renderType] *)
Fixpoint renderType (schema : ZodTypeAny) (depth : nat) {struct schema} : jsstring :=
  match schema with
  | Schema _ _ def =>
    match def with
    | ZodString _ => withDescription (lit "string") schema
    | ZodNumber _ => withDescription (lit "number") schema
    | ZodBoolean _ => withDescription (lit "boolean") schema
    | ZodBigInt _ => withDescription (lit "bigint") schema
    | ZodDate _ => withDescription (lit "string") schema
    | ZodNull _ => lit "null"
    | ZodUndefined _ => lit "undefined"
    | ZodAny _ => lit "any"
    | ZodUnknown _ => lit "unknown"
    | ZodNever _ => lit "never"
    | ZodLiteral _ value => JSON_stringify value
    | ZodEnum _ values =>
      join (lit " | ") (map (fun v => JSON_stringify (ofString v)) values)
    | ZodNativeEnum _ values =>
      join (lit " | ")
           (flat_map (fun v => match v with
                               | StringOrNumber x => [JSON_stringify x]
                               | OtherValue => []
                               end) values)
    | ZodArray _ type =>
      wrapIfUnion (renderType type depth) +++ lit "[]"
    | ZodTuple _ items =>
      lit "[" +++ join (lit ", ") (map (fun item => renderType item depth) items) +++ lit "]"
    | ZodUnion _ options =>
      join (lit " | ") (map (fun opt => renderType opt depth) options)
    | ZodDiscriminatedUnion _ options =>
      join (lit " | ") (map (fun opt => renderType opt depth) options)
    | ZodIntersection _ leftType rightType =>
      wrapIfUnion (renderType leftType depth) +++ lit " & "
      +++ wrapIfUnion (renderType rightType depth)
    | ZodOptional _ innerType => renderType innerType depth +++ lit " | undefined"
    | ZodNullable _ innerType => renderType innerType depth +++ lit " | null"
    | ZodDefault _ innerType => renderType innerType depth
    | ZodEffects _ inner => renderType inner depth
    | ZodRecord _ keyType valueType =>
      let key := match keyType with
                 | Some k => renderType k depth
                 | None => lit "string"
                 end in
      lit "Record<" +++ key +++ lit ", " +++ renderType valueType depth +++ lit ">"
    | ZodMap _ keyType valueType =>
      lit "Record<" +++ renderType keyType depth +++ lit ", "
      +++ renderType valueType depth +++ lit ">"
    | ZodObject _ shape =>
      let indent := repeatString (lit "  ") depth in
      let indentInner := repeatString (lit "  ") (depth + 1) in
      let entries :=
        map (fun entry =>
               let key := fst entry in
               let value := snd entry in
               let optional := isOptional value in
               let rendered := renderType (unwrapOptionalDefault value) (depth + 1) in
               let desc := match description_of value with
                           | Some d => if isEmpty d then [] else lit " // " +++ d
                           | None => []
                           end in
               indentInner +++ safeKey key +++ (if optional then lit "?" else [])
               +++ lit ": " +++ rendered +++ lit ";" +++ desc)
            shape in
      match entries with
      | [] => lit "{} "
      | _ :: _ => lit "{" +++ LF +++ join LF entries +++ LF +++ indent +++ lit "}"
      end
    | ZodOtherKind _ => lit "unknown"
    end
  end.

(** [zodSchemaToTypeScript]; [name] is [options.name]. *)
Definition zodSchemaToTypeScript (schema : ZodTypeAny) (name : option jsstring) : jsstring :=
  let name := match name with Some n => n | None => lit "Output" end in
  let body := renderType schema 0 in
  if isObjectSchema schema then lit "export interface " +++ name +++ lit " " +++ body
  else lit "export type " +++ name +++ lit " = " +++ body +++ lit ";".

(** *** Reading a schema

    A property of every schema directly below a [_def]. *)
Definition ForallDef (P : ZodTypeAny -> Prop) (def : ZodDef ZodTypeAny) : Prop :=
  match def with
  | ZodArray _ t | ZodOptional _ t | ZodNullable _ t | ZodDefault _ t | ZodEffects _ t => P t
  | ZodTuple _ l | ZodUnion _ l | ZodDiscriminatedUnion _ l => Forall P l
  | ZodIntersection _ a b | ZodMap _ a b => P a /\ P b
  | ZodRecord _ k v => match k with Some k' => P k' | None => True end /\ P v
  | ZodObject _ shape => Forall (fun entry => P (snd entry)) shape
  | _ => True
  end.

(** The keys of every object shape in the parts of a schema that
    [renderType] descends into. *)
Fixpoint renderedKeys (schema : ZodTypeAny) : list jsstring :=
  match schema with
  | Schema _ _ def =>
    match def with
    | ZodArray _ t | ZodOptional _ t | ZodNullable _ t | ZodDefault _ t | ZodEffects _ t =>
      renderedKeys t
    | ZodTuple _ l | ZodUnion _ l | ZodDiscriminatedUnion _ l => flat_map renderedKeys l
    | ZodIntersection _ a b | ZodMap _ a b => renderedKeys a ++ renderedKeys b
    | ZodRecord _ k v =>
      match k with Some k' => renderedKeys k' | None => [] end ++ renderedKeys v
    | ZodObject _ shape =>
      flat_map (fun entry => fst entry :: renderedKeys (snd entry)) shape
    | _ => []
    end
  end.

End Render.

End ZodToTs.

(** A reference [JSON.stringify] on the values of the reference decoder, and
    schemas of the tests as [renderType] reads them. *)
Module ReferenceEncoder.

Import Reference ZodToTs.

Definition hexDigit (n : N) : char :=
  if N.ltb n 10 then (48 + n)%N else (87 + n)%N.

(** A string between quotes, with the two-character escapes of JSON and
    [\u00XX] for the other control characters. *)
Fixpoint quoteBody (s : jsstring) : jsstring :=
  match s with
  | [] => []
  | c :: r =>
    (if N.eqb c 34 then [92; 34]
     else if N.eqb c 92 then [92; 92]
     else if N.eqb c 8 then [92; 98]
     else if N.eqb c 12 then [92; 102]
     else if N.eqb c 10 then [92; 110]
     else if N.eqb c 13 then [92; 114]
     else if N.eqb c 9 then [92; 116]
     else if N.ltb c 32 then [92; 117; 48; 48; hexDigit (c / 16); hexDigit (c mod 16)]
     else [c])%N +++ quoteBody r
  end.

Definition quote (s : jsstring) : jsstring := [34%N] +++ quoteBody s +++ [34%N].

Fixpoint encode (v : JValue) : jsstring :=
  match v with
  | JUndefined | JNull => lit "null"
  | JBool true => lit "true"
  | JBool false => lit "false"
  | JNumber literal => literal
  | JString s => quote s
  | JArray elements => lit "[" +++ join (lit ",") (map encode elements) +++ lit "]"
  | JObject members =>
    lit "{" +++ join (lit ",") (map (fun kv => quote (fst kv) +++ lit ":" +++ encode (snd kv))
                                     members) +++ lit "}"
  end.

#[export] Instance encoder : JsonEncoder :=
  {| JsonValue := JValue; ofString := JString; JSON_stringify := encode |}.

Definition plain (def : ZodDef ZodTypeAny) : ZodTypeAny := Schema None false def.

(** [z.object({ a: z.number() })] *)
Definition objectA_schema : ZodTypeAny :=
  plain (ZodObject _ [(lit "a", plain (ZodNumber _))]).

(** The schema of the describer test, with a nested object added:
    [z.object({ name: z.string(), age: z.number().optional(),
                tags: z.array(z.string()),
                "home-address": z.object({ city: z.string() }).describe("where") })] *)
Definition user_schema : ZodTypeAny :=
  plain (ZodObject _
    [ (lit "name", plain (ZodString _));
      (lit "age", Schema None true (ZodOptional _ (plain (ZodNumber _))));
      (lit "tags", plain (ZodArray _ (plain (ZodString _))));
      (lit "home-address",
       Schema (Some (lit "where")) false
              (ZodObject _ [(lit "city", plain (ZodString _))])) ]).

End ReferenceEncoder.

(** ** Reading stream results

    The [buffer] field every result carries, and a result with that field
    replaced. *)
Definition resultBuffer `{ZodSchema} (r : StreamValidationResult) : jsstring :=
  match r with
  | NoJsonYet b | InvalidJson b _ _ | InvalidSchema b _ _ _ | Valid b _ _ => b
  end.

Definition withBuffer `{ZodSchema} (r : StreamValidationResult) (b : jsstring)
  : StreamValidationResult :=
  match r with
  | NoJsonYet _ => NoJsonYet b
  | InvalidJson _ message jsonText => InvalidJson b message jsonText
  | InvalidSchema _ message issues jsonText => InvalidSchema b message issues jsonText
  | Valid _ data jsonText => Valid b data jsonText
  end.

Definition isNoJsonYet `{ZodSchema} (r : StreamValidationResult) : bool :=
  match r with NoJsonYet _ => true | _ => false end.

(** The state at the start of attempt 1 of a concrete run, computed, and the
    single call of the current helper made there. *)
Ltac second_attempt st Hr Hst :=
  destruct (stateAt _ _ 1 (initialState tt)) as [st|] eqn:Hr;
  [|vm_compute in Hr; discriminate];
  pose proof Hr as Hst; vm_compute in Hst; injection Hst as Hst.

Ltac single_call options runner st Hst c Hc Hh :=
  let calls := fresh "calls" in
  destruct (callsAt options runner st) as [|c calls] eqn:Hc;
  [rewrite <- Hst in Hc; vm_compute in Hc; discriminate|];
  assert (calls = [] /\ call_helper c = CurrentHelper) as [-> Hh]
    by (rewrite <- Hst in Hc; vm_compute in Hc; injection Hc as <- <-; repeat split).

(** * Properties *)

(** ** Strings *)

Lemma trimStart_idem (s : jsstring) : trimStart (trimStart s) = trimStart s.
Proof.
  induction s as [|c r IH]; simpl; auto.
  destruct (isWhiteSpace c) eqn:Hc; auto.
  simpl. now rewrite Hc.
Qed.

Lemma trimStart_length (s : jsstring) : (length (trimStart s) <= length s)%nat.
Proof.
  induction s as [|c r IH]; simpl; auto.
  destruct (isWhiteSpace c); simpl; lia.
Qed.

Lemma trimStart_fixed_head (s : jsstring) :
  trimStart s = s <->
  match s with [] => True | c :: _ => isWhiteSpace c = false end.
Proof.
  destruct s as [|c r]; simpl; [tauto|].
  destruct (isWhiteSpace c) eqn:Hc; split; intros Hs; try congruence.
  pose proof (trimStart_length r) as Hlen. rewrite Hs in Hlen. simpl in Hlen. lia.
Qed.

Lemma trimStart_suffix (s : jsstring) : exists w, s = w ++ trimStart s.
Proof.
  induction s as [|c r [w IH]]; simpl.
  - now exists [].
  - destruct (isWhiteSpace c).
    + exists (c :: w). simpl. now rewrite <- IH.
    + now exists [].
Qed.

Lemma trimEnd_prefix (s : jsstring) : exists w, s = trimEnd s ++ w.
Proof.
  unfold trimEnd. destruct (trimStart_suffix (rev s)) as [w Hw].
  exists (rev w). rewrite <- rev_app_distr, <- Hw. now rewrite rev_involutive.
Qed.

(** Trimming the end keeps a string that starts with a non-space character
    starting with it. *)
Lemma trimStart_trimEnd_fixed (s : jsstring) :
  trimStart s = s -> trimStart (trimEnd s) = trimEnd s.
Proof.
  intros Hs. apply trimStart_fixed_head in Hs. apply trimStart_fixed_head.
  destruct (trimEnd_prefix s) as [w Hw].
  destruct (trimEnd s) as [|c t]; [exact I|].
  rewrite Hw in Hs. exact Hs.
Qed.

Lemma trimEnd_idem (s : jsstring) : trimEnd (trimEnd s) = trimEnd s.
Proof.
  unfold trimEnd. rewrite rev_involutive, trimStart_idem. reflexivity.
Qed.

Lemma trim_idem (s : jsstring) : trim (trim s) = trim s.
Proof.
  unfold trim.
  rewrite (trimStart_trimEnd_fixed (trimStart s) (trimStart_idem s)).
  apply trimEnd_idem.
Qed.

(** ** The extractor *)

Lemma isCloser_not_quote (ch : char) :
  isCloser ch = true -> N.eqb ch QUOTE = false /\ isOpener ch = false.
Proof.
  unfold isCloser, isOpener, QUOTE, LBRACE, LBRACKET, RBRACE, RBRACKET.
  rewrite orb_true_iff, !N.eqb_eq. intros [-> | ->]; now split.
Qed.

(** The loop returns at the first closer outside a string literal that
    brings the depth to zero, with the text from [start] to there. *)
Lemma extractJsonText_loop_firstClose (text : jsstring) (start : Z) (rest : jsstring) :
  forall (i : Z) (st : ScanState),
    extractJsonText_loop text start rest i (inString st) (escaped st) (depth st)
    = option_map (fun p => slice text start (i + Z.of_nat p + 1)) (firstClose st rest).
Proof.
  induction rest as [|ch rest IH]; intros i [inS esc d]; [reflexivity|].
  cbn [extractJsonText_loop firstClose inString escaped depth].
  assert (Hshift : forall st',
    extractJsonText_loop text start rest (i + 1) (inString st') (escaped st') (depth st')
    = option_map (fun p => slice text start (i + Z.of_nat p + 1))
        (option_map Datatypes.S (firstClose st' rest))).
  { intros st'. rewrite IH. destruct (firstClose st' rest) as [p|]; simpl; auto.
    do 2 f_equal. lia. }
  unfold closesHere, scanStep; cbn [inString escaped depth].
  destruct inS; cbn [negb andb].
  - destruct esc.
    + exact (Hshift {| inString := true; escaped := false; depth := d |}).
    + destruct (N.eqb ch BACKSLASH).
      * exact (Hshift {| inString := true; escaped := true; depth := d |}).
      * destruct (N.eqb ch QUOTE).
        -- exact (Hshift {| inString := false; escaped := false; depth := d |}).
        -- exact (Hshift {| inString := true; escaped := false; depth := d |}).
  - destruct (isCloser ch) eqn:Hclose; cbn [andb].
    + destruct (isCloser_not_quote ch Hclose) as [Hq Ho].
      rewrite Hq. fold (isOpener ch). rewrite Ho. fold (isCloser ch). rewrite Hclose.
      cbv zeta. destruct (d - 1 =? 0); [simpl; do 2 f_equal; lia|].
      exact (Hshift {| inString := false; escaped := esc; depth := d - 1 |}).
    + destruct (N.eqb ch QUOTE).
      * exact (Hshift {| inString := true; escaped := esc; depth := d |}).
      * fold (isOpener ch). destruct (isOpener ch).
        -- exact (Hshift {| inString := false; escaped := esc; depth := d + 1 |}).
        -- fold (isCloser ch). rewrite Hclose.
           exact (Hshift {| inString := false; escaped := esc; depth := d |}).
Qed.

Lemma closesHere_true (st : ScanState) (ch : char) :
  closesHere st ch = true ->
  inString st = false /\ isCloser ch = true /\ depth (scanStep st ch) = 0.
Proof.
  unfold closesHere, scanStep. destruct st as [inS esc d]; cbn [inString escaped depth].
  rewrite !andb_true_iff, negb_true_iff, Z.eqb_eq. intros [[-> Hc] Hd].
  destruct (isCloser_not_quote ch Hc) as [-> ->]. rewrite Hc. cbn. auto.
Qed.

Lemma closesHere_false (st : ScanState) (ch : char) :
  closesHere st ch = false -> 1 <= depth st -> 1 <= depth (scanStep st ch).
Proof.
  unfold closesHere, scanStep. destruct st as [inS esc d]; cbn [inString escaped depth].
  intros Hc Hd.
  destruct inS; cbn [negb andb] in Hc.
  - destruct esc; [exact Hd|].
    destruct (N.eqb ch BACKSLASH); [exact Hd|]. destruct (N.eqb ch QUOTE); exact Hd.
  - destruct (N.eqb ch QUOTE); [exact Hd|].
    destruct (isOpener ch); cbn [depth]; [lia|].
    destruct (isCloser ch); cbn [andb depth] in *; [|exact Hd].
    apply Z.eqb_neq in Hc. lia.
Qed.

(** Inside a string literal no character changes the depth. *)
Lemma scanStep_inString (st : ScanState) (ch : char) :
  inString st = true -> depth (scanStep st ch) = depth st.
Proof.
  unfold scanStep. intros ->.
  destruct (escaped st); [reflexivity|].
  destruct (N.eqb ch BACKSLASH); [reflexivity|]. now destruct (N.eqb ch QUOTE).
Qed.

Lemma firstClose_depth (rest : jsstring) :
  forall st, 1 <= depth st ->
    match firstClose st rest with
    | Some p =>
      (p < length rest)%nat /\
      depth (fold_left scanStep (firstn (Datatypes.S p) rest) st) = 0 /\
      inString (fold_left scanStep (firstn p rest) st) = false /\
      (forall q, (q < p)%nat ->
                 1 <= depth (fold_left scanStep (firstn (Datatypes.S q) rest) st))
    | None =>
      forall q, (q < length rest)%nat ->
                1 <= depth (fold_left scanStep (firstn (Datatypes.S q) rest) st)
    end.
Proof.
  induction rest as [|ch rest IH]; intros st Hd; cbn [firstClose].
  - intros q Hq. simpl in Hq. lia.
  - destruct (closesHere st ch) eqn:Hc.
    + apply closesHere_true in Hc. destruct Hc as (HinS & _ & Hz).
      repeat split; simpl; auto; lia.
    + pose proof (closesHere_false st ch Hc Hd) as Hd'.
      specialize (IH (scanStep st ch) Hd').
      destruct (firstClose (scanStep st ch) rest) as [p|]; cbn [option_map].
      * destruct IH as (Hp & Hz & HinS & Hmin).
        split; [simpl; lia|]. split; [exact Hz|]. split; [exact HinS|].
        intros [|q] Hq; [exact Hd'|]. apply (Hmin q). lia.
      * intros [|q] Hq; [exact Hd'|]. apply (IH q). simpl in Hq. lia.
Qed.

Lemma indexOf_from_spec (s : jsstring) (c : char) :
  forall i, 0 <= i ->
    let r := indexOf_from s c i in
    (r = -1 /\ ~ In c s) \/
    (i <= r < i + jslength s /\
     nth_error s (Z.to_nat (r - i)) = Some c /\
     forall j x, (j < Z.to_nat (r - i))%nat -> nth_error s j = Some x -> x <> c).
Proof.
  unfold jslength.
  induction s as [|x s IH]; intros i Hi; cbn [indexOf_from].
  - left. split; auto.
  - destruct (N.eqb x c) eqn:Hx.
    + apply N.eqb_eq in Hx. subst x. right. split; [simpl length; lia|].
      rewrite Z.sub_diag. simpl. split; auto. intros j y Hj. lia.
    + apply N.eqb_neq in Hx.
      destruct (IH (i + 1) ltac:(lia)) as [[Hr Hn] | (Hr & Hnth & Hmin)].
      * left. split; [exact Hr|]. simpl. intros [H|H]; auto.
      * right. split; [simpl length; lia|].
        replace (Z.to_nat (indexOf_from s c (i + 1) - i))
          with (Datatypes.S (Z.to_nat (indexOf_from s c (i + 1) - (i + 1)))) by lia.
        split; [exact Hnth|].
        intros [|j] y Hj Hy; simpl in Hy.
        -- injection Hy as <-. exact Hx.
        -- apply (Hmin j y); [lia|exact Hy].
Qed.

Lemma charAt_nth (text : jsstring) (i : Z) :
  0 <= i -> charAt text i = nth_error text (Z.to_nat i).
Proof.
  intros Hi. unfold charAt. destruct (i <? 0) eqn:H; [lia|reflexivity].
Qed.

Lemma isOpener_cases (ch : char) :
  isOpener ch = true <-> ch = LBRACE \/ ch = LBRACKET.
Proof.
  unfold isOpener. now rewrite orb_true_iff, !N.eqb_eq.
Qed.

Lemma findJsonStartIndex_spec (text : jsstring) :
  match findJsonStartIndex text with
  | None => noOpener text
  | Some start => 0 <= start < jslength text /\ firstOpenerAt text start
  end.
Proof.
  unfold findJsonStartIndex, indexOf.
  destruct (indexOf_from_spec text LBRACE 0 ltac:(lia)) as [[Ho Hno] | (Ho & Hoc & Homin)];
  destruct (indexOf_from_spec text LBRACKET 0 ltac:(lia)) as [[Ha Hna] | (Ha & Hac & Hamin)];
  cbv zeta.
  - rewrite Ho, Ha. simpl. intros ch Hin.
    destruct (isOpener ch) eqn:H; auto. apply isOpener_cases in H. destruct H; subst; tauto.
  - rewrite Ho. cbn [Z.eqb andb]. rewrite Z.sub_0_r in *.
    destruct (indexOf_from text LBRACKET 0 =? -1) eqn:E; [lia|]. cbn [andb].
    split; [lia|]. split.
    + exists LBRACKET. rewrite charAt_nth by lia. auto.
    + intros j ch Hj Hch. rewrite charAt_nth in Hch by lia.
      destruct (isOpener ch) eqn:H; auto. apply isOpener_cases in H. destruct H; subst.
      * exfalso. apply Hno. eapply nth_error_In; eauto.
      * exfalso. apply (Hamin (Z.to_nat j) LBRACKET); auto. lia.
  - rewrite Ha. rewrite Z.sub_0_r in *.
    destruct (indexOf_from text LBRACE 0 =? -1) eqn:E; [lia|]. cbn [andb Z.eqb].
    split; [lia|]. split.
    + exists LBRACE. rewrite charAt_nth by lia. auto.
    + intros j ch Hj Hch. rewrite charAt_nth in Hch by lia.
      destruct (isOpener ch) eqn:H; auto. apply isOpener_cases in H. destruct H; subst.
      * exfalso. apply (Homin (Z.to_nat j) LBRACE); auto. lia.
      * exfalso. apply Hna. eapply nth_error_In; eauto.
  - rewrite Z.sub_0_r in *.
    destruct (indexOf_from text LBRACE 0 =? -1) eqn:E; [lia|].
    destruct (indexOf_from text LBRACKET 0 =? -1) eqn:E'; [lia|]. cbn [andb].
    split; [lia|]. split.
    + destruct (Z.min_spec (indexOf_from text LBRACE 0) (indexOf_from text LBRACKET 0))
        as [[_ ->] | [_ ->]]; rewrite charAt_nth by lia.
      * now exists LBRACE.
      * now exists LBRACKET.
    + intros j ch Hj Hch. rewrite charAt_nth in Hch by lia.
      destruct (isOpener ch) eqn:H; auto. apply isOpener_cases in H. destruct H; subst.
      * exfalso. apply (Homin (Z.to_nat j) LBRACE); auto. lia.
      * exfalso. apply (Hamin (Z.to_nat j) LBRACKET); auto. lia.
Qed.

Lemma slice_firstn_skipn (t : jsstring) (a b : Z) :
  0 <= a <= b -> b <= jslength t ->
  slice t a b = firstn (Z.to_nat (b - a)) (skipn (Z.to_nat a) t).
Proof.
  intros Hab Hb. unfold slice.
  destruct (a <? 0) eqn:Ha; [lia|]. destruct (b <? 0) eqn:Hb0; [lia|].
  now rewrite !Z.min_l by lia.
Qed.

Lemma isOpener_not_closer (ch : char) : isOpener ch = true -> isCloser ch = false.
Proof.
  intros H. apply isOpener_cases in H. destruct H; subst; reflexivity.
Qed.

Lemma firstOpenerAt_unique (text : jsstring) (a b : Z) :
  0 <= a -> 0 <= b -> firstOpenerAt text a -> firstOpenerAt text b -> a = b.
Proof.
  intros Ha Hb [(ca & Hca & Hoa) Hmina] [(cb & Hcb & Hob) Hminb].
  destruct (Z.lt_trichotomy a b) as [H | [H | H]]; auto.
  - specialize (Hminb a ca ltac:(lia) Hca). congruence.
  - specialize (Hmina b cb ltac:(lia) Hcb). congruence.
Qed.

Lemma firstOpenerAt_range (text : jsstring) (start : Z) :
  firstOpenerAt text start -> 0 <= start < jslength text.
Proof.
  intros [(ch & Hch & _) _]. unfold charAt in Hch.
  destruct (start <? 0) eqn:H; [discriminate|].
  assert (Hlt : (Z.to_nat start < length text)%nat)
    by (apply nth_error_Some; congruence).
  unfold jslength. lia.
Qed.

Lemma firstOpenerAt_not_noOpener (text : jsstring) (start : Z) :
  firstOpenerAt text start -> ~ noOpener text.
Proof.
  intros Hf Hno. pose proof (firstOpenerAt_range _ _ Hf) as Hr.
  destruct Hf as [(ch & Hch & Ho) _].
  rewrite charAt_nth in Hch by lia. apply nth_error_In in Hch.
  rewrite (Hno ch Hch) in Ho. discriminate.
Qed.

(** From the first opener on, the text is that opener and what follows it,
    and the state after any index is the fold over what follows. *)
Lemma scanned_after_opener (text : jsstring) (start : Z) :
  firstOpenerAt text start ->
  exists o rest1,
    skipn (Z.to_nat start) text = o :: rest1 /\
    isOpener o = true /\
    jslength text = start + 1 + Z.of_nat (length rest1) /\
    forall j, start - 1 <= j < jslength text ->
      scanned text start j =
      match Z.to_nat (j + 1 - start) with
      | O => scanStart
      | Datatypes.S n => fold_left scanStep (firstn n rest1) (scanStep scanStart o)
      end.
Proof.
  intros Hf. pose proof (firstOpenerAt_range _ _ Hf) as Hr.
  destruct Hf as [(o & Hch & Ho) _]. rewrite charAt_nth in Hch by lia.
  destruct (skipn (Z.to_nat start) text) as [|o' rest1] eqn:Hskip.
  { assert (Hl : length (skipn (Z.to_nat start) text) = 0%nat) by now rewrite Hskip.
    rewrite length_skipn in Hl. unfold jslength in Hr. lia. }
  assert (o' = o).
  { pose proof (hd_error_skipn (Z.to_nat start) text) as Hn. rewrite Hskip in Hn.
    simpl in Hn. congruence. }
  subst o'. exists o, rest1. split; [reflexivity|]. split; [exact Ho|].
  assert (Hlen : jslength text = start + 1 + Z.of_nat (length rest1)).
  { assert (Hl : length (skipn (Z.to_nat start) text) = Datatypes.S (length rest1))
      by now rewrite Hskip.
    rewrite length_skipn in Hl. unfold jslength in *. lia. }
  split; [exact Hlen|].
  intros j Hj. unfold scanned.
  rewrite slice_firstn_skipn by lia. rewrite Hskip.
  destruct (Z.to_nat (j + 1 - start)); reflexivity.
Qed.

(** What [extractJsonText] returns, in terms of the depth at each index. *)
Lemma extractJsonText_cases (text : jsstring) :
  match findJsonStartIndex text with
  | None => noOpener text /\ extractJsonText text = None
  | Some start =>
    firstOpenerAt text start /\
    ((neverCloses text start /\ extractJsonText text = None) \/
     (exists i, closesAt text start i /\
                inString (scanned text start (i - 1)) = false /\
                extractJsonText text = Some (slice text start (i + 1))))
  end.
Proof.
  pose proof (findJsonStartIndex_spec text) as Hspec. unfold extractJsonText.
  destruct (findJsonStartIndex text) as [start|]; [|auto].
  destruct Hspec as [Hr Hf]. split; [exact Hf|].
  destruct (scanned_after_opener text start Hf) as (o & rest1 & Hskip & Ho & Hlen & Hsc).
  rewrite Hskip.
  change (extractJsonText_loop text start (o :: rest1) start false false 0)
    with (extractJsonText_loop text start (o :: rest1) start
            (inString scanStart) (escaped scanStart) (depth scanStart)).
  rewrite (extractJsonText_loop_firstClose text start (o :: rest1) start scanStart).
  assert (Hnc : closesHere scanStart o = false).
  { unfold closesHere. now rewrite (isOpener_not_closer o Ho), andb_false_r. }
  cbn [firstClose].
  assert (Hst1 : 1 <= depth (scanStep scanStart o)).
  { unfold scanStep, scanStart; cbn [inString escaped depth].
    apply isOpener_cases in Ho. destruct Ho; subst; cbn; lia. }
  pose proof (firstClose_depth rest1 (scanStep scanStart o) Hst1) as Hfc.
  destruct (firstClose (scanStep scanStart o) rest1) as [p|];
    rewrite Hnc; cbn [option_map].
  - right. destruct Hfc as (Hp & Hz & HinS & Hmin).
    exists (start + Z.of_nat (Datatypes.S p)). split; [|split].
    + split; [lia|]. split.
      * unfold depthAt. rewrite Hsc by lia.
        replace (Z.to_nat (start + Z.of_nat (Datatypes.S p) + 1 - start))
          with (Datatypes.S (Datatypes.S p)) by lia.
        exact Hz.
      * intros j Hj. unfold depthAt. rewrite Hsc by lia.
        destruct (Z.to_nat (j + 1 - start)) as [|[|q]] eqn:Hq; [lia| |].
        -- simpl. lia.
        -- specialize (Hmin q ltac:(lia)). lia.
    + rewrite Hsc by lia.
      replace (Z.to_nat (start + Z.of_nat (Datatypes.S p) - 1 + 1 - start))
        with (Datatypes.S p) by lia.
      exact HinS.
    + reflexivity.
  - left. split; [|reflexivity].
    intros i Hi. unfold depthAt. rewrite Hsc by lia.
    destruct (Z.to_nat (i + 1 - start)) as [|[|q]] eqn:Hq; [lia| |].
    + simpl. lia.
    + specialize (Hfc q ltac:(lia)). lia.
Qed.

Lemma closesAt_unique (text : jsstring) (start i j : Z) :
  closesAt text start i -> closesAt text start j -> i = j.
Proof.
  intros (Hi & Hzi & Hmi) (Hj & Hzj & Hmj).
  destruct (Z.lt_trichotomy i j) as [H | [H | H]]; auto.
  - exfalso. apply (Hmj i); [lia|exact Hzi].
  - exfalso. apply (Hmi j); [lia|exact Hzj].
Qed.

Lemma slice_nonempty (text : jsstring) (a b : Z) :
  0 <= a < b -> b <= jslength text -> isEmpty (slice text a b) = false.
Proof.
  intros Hab Hb. rewrite slice_firstn_skipn by lia.
  destruct (firstn _ _) as [|x l] eqn:E; [|reflexivity].
  assert (Hl : length (firstn (Z.to_nat (b - a)) (skipn (Z.to_nat a) text)) = 0%nat)
    by now rewrite E.
  rewrite length_firstn, length_skipn in Hl. unfold jslength in Hb. lia.
Qed.

Lemma firstn_succ_snoc (l : jsstring) (m : nat) (x : char) :
  nth_error l m = Some x -> firstn (Datatypes.S m) l = firstn m l ++ [x].
Proof.
  revert m. induction l as [|y l IH]; intros [|m] Hm; simpl in *; try discriminate.
  - now injection Hm as ->.
  - now rewrite (IH m Hm).
Qed.

Lemma extractAndParseJson_of_span `{JsonDecoder} (text span : jsstring) :
  extractJsonText text = Some span -> isEmpty span = false ->
  extractAndParseJson text =
  match JSON_parse span with
  | inl value => ExtractOk span value
  | inr message => ExtractFail invalid_json message (Some span)
  end.
Proof.
  intros Hs He. unfold extractAndParseJson. now rewrite Hs, He.
Qed.

(** C4. [extractAndParseJson], for every text: without a brace or bracket
    opener, or when the depth counted from the first opener never returns to
    zero, the result is the [no_json] failure; otherwise the span runs from
    the first opener through the first index where the depth is zero again,
    that index is outside any string literal, characters inside string
    literals leave the depth alone, and the result is [invalid_json] with the
    decoder's message and the span when the span does not decode, and the
    span with its decoded value when it does. One of the three situations
    always holds. The text [{"a": 1,}] is its own span. *)
Theorem extractAndParseJson_spec `{JsonDecoder} (text : jsstring) :
  let notFound :=
    ExtractFail no_json (lit "No JSON object/array found in model output.") None in
  (noOpener text -> extractAndParseJson text = notFound) /\
  (forall start, firstOpenerAt text start -> neverCloses text start ->
     extractAndParseJson text = notFound) /\
  (forall start i, firstOpenerAt text start -> closesAt text start i ->
     inString (scanned text start (i - 1)) = false /\
     extractAndParseJson text =
     match JSON_parse (slice text start (i + 1)) with
     | inl value => ExtractOk (slice text start (i + 1)) value
     | inr message => ExtractFail invalid_json message (Some (slice text start (i + 1)))
     end) /\
  (noOpener text \/
   exists start, firstOpenerAt text start /\
     (neverCloses text start \/ exists i, closesAt text start i)) /\
  (forall start j, firstOpenerAt text start -> start <= j < jslength text ->
     inString (scanned text start (j - 1)) = true ->
     depthAt text start j = depthAt text start (j - 1)) /\
  (forall message, JSON_parse (litq "{'a': 1,}") = inr message ->
     extractAndParseJson (litq "{'a': 1,}")
     = ExtractFail invalid_json message (Some (litq "{'a': 1,}"))).
Proof.
  intros notFound.
  pose proof (extractJsonText_cases text) as Hcases.
  pose proof (findJsonStartIndex_spec text) as Hstart.
  split; [|split; [|split; [|split; [|split]]]].
  - intros Hno. destruct (findJsonStartIndex text) as [start|].
    + destruct Hcases as [Hf _]. now destruct (firstOpenerAt_not_noOpener _ _ Hf).
    + destruct Hcases as [_ He]. unfold extractAndParseJson. now rewrite He.
  - intros start Hf Hnever. destruct (findJsonStartIndex text) as [start'|].
    + destruct Hstart as [Hr' _]. destruct Hcases as [Hf' [[_ He] | (i & Hc & _)]].
      * unfold extractAndParseJson. now rewrite He.
      * pose proof (firstOpenerAt_range _ _ Hf) as Hr.
        assert (start = start') by (apply (firstOpenerAt_unique text); auto; lia).
        subst start'. destruct Hc as (Hi & Hz & _). now destruct (Hnever i Hi).
    + destruct Hcases as [Hno _]. now destruct (firstOpenerAt_not_noOpener _ _ Hf).
  - intros start i Hf Hc. destruct (findJsonStartIndex text) as [start'|].
    + destruct Hstart as [Hr' _]. pose proof (firstOpenerAt_range _ _ Hf) as Hr.
      destruct Hcases as [Hf' Hcases].
      assert (start' = start) by (apply (firstOpenerAt_unique text); auto; lia).
      subst start'. destruct Hcases as [[Hnever _] | (i' & Hc' & HinS & He)].
      * destruct Hc as (Hi & Hz & _). now destruct (Hnever i Hi).
      * assert (i' = i) by (eapply closesAt_unique; eauto). subst i'.
        split; [exact HinS|].
        apply extractAndParseJson_of_span; [exact He|].
        destruct Hc as (Hi & _). apply slice_nonempty; lia.
    + destruct Hcases as [Hno _]. now destruct (firstOpenerAt_not_noOpener _ _ Hf).
  - destruct (findJsonStartIndex text) as [start|].
    + right. exists start. destruct Hcases as [Hf [[Hn _] | (i & Hc & _)]].
      * split; auto.
      * split; [exact Hf|]. right. now exists i.
    + left. tauto.
  - intros start j Hf Hj HinS.
    destruct (scanned_after_opener text start Hf) as (o & rest1 & Hskip & Ho & Hlen & Hsc).
    unfold depthAt. rewrite (Hsc (j - 1)) in HinS by lia.
    rewrite (Hsc j), (Hsc (j - 1)) by lia.
    replace (j - 1 + 1 - start) with (j - start) in * by lia.
    destruct (Z.to_nat (j + 1 - start)) as [|n] eqn:Hn; [lia|].
    replace (Z.to_nat (j - start)) with n in * by lia.
    destruct n as [|m]; [discriminate HinS|].
    destruct (nth_error rest1 m) as [x|] eqn:Hx.
    + rewrite (firstn_succ_snoc rest1 m x Hx), fold_left_app. cbn [fold_left].
      now apply scanStep_inString.
    + apply nth_error_None in Hx. lia.
  - intros message Hm.
    rewrite (extractAndParseJson_of_span (litq "{'a': 1,}") (litq "{'a': 1,}"));
      [now rewrite Hm|reflexivity|reflexivity].
Qed.

(** With the reference decoder the trailing comma is rejected, and a brace
    inside a string literal does not end the span. *)
Example extractAndParseJson_trailing_comma :
  @extractAndParseJson Reference.decoder (litq "{'a': 1,}")
  = ExtractFail invalid_json (lit "Unexpected token in JSON") (Some (litq "{'a': 1,}")).
Proof. reflexivity. Qed.

Example extractAndParseJson_no_json :
  @extractAndParseJson Reference.decoder (lit "no json here")
  = ExtractFail no_json (lit "No JSON object/array found in model output.") None.
Proof. reflexivity. Qed.

Example extractJsonText_brace_in_string :
  extractJsonText (litq "see {'a': '{not json}'} ok") = Some (litq "{'a': '{not json}'}").
Proof. reflexivity. Qed.

Lemma extractJsonText_nonempty (text span : jsstring) :
  extractJsonText text = Some span -> isEmpty span = false.
Proof.
  intros Hs. pose proof (extractJsonText_cases text) as Hc.
  pose proof (findJsonStartIndex_spec text) as Hr.
  destruct (findJsonStartIndex text) as [start|].
  - destruct Hr as [Hr _].
    destruct Hc as [_ [[_ He] | (i & (Hi & _) & _ & He)]]; [congruence|].
    rewrite He in Hs. injection Hs as <-. apply slice_nonempty; lia.
  - destruct Hc as [_ He]. congruence.
Qed.

(** ** The stream validator *)

Section StreamValidator.

Context `{schema : ZodSchema}.

Lemma push_buffer (buf chunk : jsstring) : snd (push buf chunk) = buf +++ chunk.
Proof.
  unfold push. destruct (extractAndParseJson (buf +++ chunk)) as [t v|[] m t]; auto.
  now destruct (safeParse v).
Qed.

Lemma push_from_empty (buf chunk : jsstring) :
  fst (push buf chunk) = fst (push [] (buf +++ chunk)).
Proof. reflexivity. Qed.

Lemma callAll_app (calls more : list Call) :
  forall buf,
    callAll buf (calls ++ more)
    = (fst (callAll buf calls) ++ fst (callAll (snd (callAll buf calls)) more),
       snd (callAll (snd (callAll buf calls)) more)).
Proof.
  induction calls as [|c calls IH]; intros buf.
  - simpl. now destruct (callAll buf more).
  - destruct c; cbn [callAll app].
    + destruct (push buf chunk) as [r buf'].
      rewrite IH. now destruct (callAll buf' calls).
    + rewrite IH. now destruct (callAll (reset buf) calls).
    + rewrite IH. now destruct (callAll buf calls).
Qed.

(** The closure variable after a history of calls: the chunks pushed since
    the last reset, after the initial content when there was no reset. *)
Lemma callAll_buffer (calls : list Call) :
  forall buf,
    snd (callAll buf calls)
    = (if existsb isReset calls then [] else buf) +++ concat (chunksSinceReset calls).
Proof.
  induction calls as [|c calls IH]; intros buf.
  - simpl. now rewrite app_nil_r.
  - destruct c; cbn [callAll chunksSinceReset existsb isReset orb].
    + pose proof (push_buffer buf chunk) as Hb.
      destruct (push buf chunk) as [r buf']. simpl in Hb. subst buf'.
      specialize (IH (buf +++ chunk)). destruct (callAll (buf +++ chunk) calls) as [rs b].
      simpl in *. rewrite IH. destruct (existsb isReset calls); simpl; auto.
      now rewrite <- app_assoc.
    + specialize (IH (reset buf)). destruct (callAll (reset buf) calls) as [rs b].
      simpl in *. rewrite IH. unfold reset. now destruct (existsb isReset calls).
    + specialize (IH buf). destruct (callAll buf calls) as [rs b].
      simpl in *. rewrite IH. now destruct (existsb isReset calls).
Qed.

(** C5. What a push returns is what one push of the whole accumulated
    content (the chunks since construction or the last reset, then this chunk)
    returns on a fresh validator, whatever the chunk boundaries were; and that
    is [NoJsonYet] when the content has no span, [InvalidJson] with the
    decoder's message when the span does not decode, [InvalidSchema] with the
    formatted issues when the decoded span fails the schema, and [Valid] with
    the data otherwise. Pushing the two chunks of [{"a": 1}] ends with the
    result of pushing it whole. *)
Theorem push_result_from_buffer :
  (forall (calls : list Call) (chunk : jsstring),
     fst (createJsonStreamValidator (calls ++ [Push chunk]))
     = fst (createJsonStreamValidator calls)
       ++ [PushReturned (fst (push [] (concat (chunksSinceReset calls) +++ chunk)))]) /\
  (forall content, extractJsonText content = None ->
     fst (push [] content) = NoJsonYet content) /\
  (forall content span message,
     extractJsonText content = Some span -> JSON_parse span = inr message ->
     fst (push [] content) = InvalidJson content message (Some span)) /\
  (forall content span value issues,
     extractJsonText content = Some span -> JSON_parse span = inl value ->
     safeParse value = inr issues ->
     fst (push [] content)
     = InvalidSchema content (lit "Output JSON did not match the schema.")
                     (formatZodIssues issues) span) /\
  (forall content span value data,
     extractJsonText content = Some span -> JSON_parse span = inl value ->
     safeParse value = inl data ->
     fst (push [] content) = Valid content data span) /\
  last (fst (createJsonStreamValidator [Push (litq "{'a':"); Push (lit " 1}")])) ResetReturned
  = last (fst (createJsonStreamValidator [Push (litq "{'a': 1}")])) ResetReturned.
Proof.
  split; [|split; [|split; [|split; [|split]]]].
  - intros calls chunk. unfold createJsonStreamValidator.
    rewrite callAll_app. cbn [fst]. f_equal.
    rewrite callAll_buffer. cbn [callAll].
    replace ((if existsb isReset calls then [] else []) +++ concat (chunksSinceReset calls))
      with (concat (chunksSinceReset calls)) by now destruct (existsb isReset calls).
    rewrite (surjective_pairing (push _ chunk)). cbn [fst].
    now rewrite push_from_empty.
  - intros content He. unfold push, extractAndParseJson. cbn [app]. now rewrite He.
  - intros content span message He Hm. unfold push. cbn [app].
    rewrite (extractAndParseJson_of_span content span He (extractJsonText_nonempty _ _ He)).
    now rewrite Hm.
  - intros content span value issues He Hv Hs. unfold push. cbn [app].
    rewrite (extractAndParseJson_of_span content span He (extractJsonText_nonempty _ _ He)).
    now rewrite Hv, Hs.
  - intros content span value data He Hv Hs. unfold push. cbn [app].
    rewrite (extractAndParseJson_of_span content span He (extractJsonText_nonempty _ _ He)).
    now rewrite Hv, Hs.
  - unfold createJsonStreamValidator. cbn [callAll].
    rewrite (surjective_pairing (push [] (litq "{'a':"))).
    rewrite push_buffer.
    rewrite (surjective_pairing (push ([] +++ litq "{'a':") (lit " 1}"))).
    rewrite (surjective_pairing (push [] (litq "{'a': 1}"))).
    cbn [fst last]. rewrite push_from_empty. reflexivity.
Qed.

End StreamValidator.

(** The two-chunk run of the integration test, on the reference instances. *)
Example stream_two_chunks :
  fst (@createJsonStreamValidator Reference.decoder Reference.objectA
         [Push (litq "{'a':"); Push (lit " 1}")])
  = [ PushReturned (NoJsonYet (litq "{'a':"));
      PushReturned
        (@Valid Reference.decoder Reference.objectA (litq "{'a': 1}")
                (Reference.JObject [(lit "a", Reference.JNumber (lit "1"))])
                (litq "{'a': 1}")) ].
Proof. reflexivity. Qed.

(** ** The tunnel *)

Section TunnelProperties.

Context `{schema : ZodSchema}.
Variable options : TunnelOptions.
Variables S E : Type.
Variable runner : TunnelRunner S E.

Local Abbreviation body := (attemptBody options runner).
Local Abbreviation reached := (stateAt options runner).
Local Abbreviation calls_at := (callsAt options runner).
Local Abbreviation ending_at := (endingAt options runner).
Local Abbreviation logged := (afterInvocation options runner).
Local Abbreviation failed := (afterFailure options runner).
Local Abbreviation m := (maxRetriesOf options).

(** The loop body, by how the invocation ended. *)
Lemma attemptBody_eq (st : RunState S E) :
  body st =
  match ending_at st with
  | Rejected err => Settle (RunnerError err) (logged st)
  | HelperTypeError => Settle TypeError (logged st)
  | Resolved raw =>
    match failureFromRaw raw with
    | None =>
      match parse (match extractAndParseJson raw with
                   | ExtractOk _ value => value
                   | ExtractFail _ _ _ => js_undefined
                   end) with
      | inl validated => Settle (Fulfilled validated) (logged st)
      | inr issues => Settle (ZodError issues) (logged st)
      end
    | Some failure => Continue (failed st failure)
    end
  end.
Proof.
  unfold attemptBody, afterFailure, afterInvocation, endingAt, callsAt, invocationAt.
  destruct (invokeRunner options _ _ _ _ _) as [[[calls ending] s'] intent'].
  reflexivity.
Qed.

(** Whatever validates at the first extraction is what the second one
    parses and validates again. *)
Lemma failureFromRaw_None (raw : jsstring) :
  failureFromRaw raw = None ->
  exists jsonText value validated,
    extractAndParseJson raw = ExtractOk jsonText value /\
    safeParse value = inl validated.
Proof.
  unfold failureFromRaw. destruct (extractAndParseJson raw) as [t v|[] msg t]; try discriminate.
  destruct (safeParse v) as [d|issues] eqn:Hs; [|discriminate].
  intros _. now exists t, v, d.
Qed.

Lemma failureFromRaw_validateRaw (raw : jsstring) :
  match validateRaw raw with
  | inl failure => failureFromRaw raw = Some failure
  | inr validated =>
    failureFromRaw raw = None /\
    parse (match extractAndParseJson raw with
           | ExtractOk _ value => value
           | ExtractFail _ _ _ => js_undefined
           end) = inl validated
  end.
Proof.
  unfold validateRaw, failureFromRaw, parse.
  destruct (extractAndParseJson raw) as [t v|[] msg t]; auto.
  destruct (safeParse v) as [d|issues] eqn:Hs; auto.
Qed.

Lemma attemptBody_reuse_eq (st : RunState S E) :
  attemptBody_reuse options runner st = body st.
Proof.
  unfold attemptBody_reuse, attemptBody.
  destruct (invokeRunner options _ _ _ _ _) as [[[calls ending] s'] intent'].
  destruct ending as [raw|err|]; auto.
  pose proof (failureFromRaw_validateRaw raw) as Hv.
  destruct (validateRaw raw) as [failure|validated].
  - now rewrite Hv.
  - destruct Hv as [-> ->]. reflexivity.
Qed.

Lemma runLoop_reuse_eq (fuel : nat) :
  forall st, runLoop_reuse options runner fuel st = runLoop options runner fuel st.
Proof.
  induction fuel as [|fuel IH]; intros st; cbn [runLoop runLoop_reuse]; auto.
  rewrite attemptBody_reuse_eq. destruct (body st); auto.
Qed.

(** C9. The run that parses the raw text a second time before returning
    and the run that returns the value of the first extraction and validation
    settle the same way and leave the same state, for every runner; and
    whenever the first pass reports no failure, the value it validated is the
    one the second pass produces. *)
Theorem run_reparse_is_redundant :
  (forall s0, run options runner s0 = run_reuse options runner s0) /\
  (forall raw, failureFromRaw raw = None ->
     exists validated,
       validateRaw raw = inr validated /\
       parse (match extractAndParseJson raw with
              | ExtractOk _ value => value
              | ExtractFail _ _ _ => js_undefined
              end) = inl validated).
Proof.
  split.
  - intros s0. unfold run, run_reuse. now rewrite runLoop_reuse_eq.
  - intros raw Hnone. pose proof (failureFromRaw_validateRaw raw) as Hv.
    destruct (validateRaw raw) as [failure|validated].
    + congruence.
    + exists validated. tauto.
Qed.

(** *** The closure and one invocation *)

Lemma injectSchema_intent (attempt : Z) (lf : option TunnelFailure) (intent u : jsstring) :
  snd (injectSchema options attempt lf intent u)
  = if attempt =? 0 then (if isEmpty (trim u) then intent else trim u) else intent.
Proof.
  unfold injectSchema. cbn [snd].
  destruct (attempt =? 0); cbn [andb]; [|reflexivity]. now destruct (isEmpty (trim u)).
Qed.

Lemma injectSchema_prompt (attempt : Z) (lf : option TunnelFailure) (intent u : jsstring) :
  fst (injectSchema options attempt lf intent u)
  = if attempt =? 0 then Some (buildBasePrompt options (trim u))
    else option_map (buildFixPrompt options intent) lf.
Proof.
  unfold injectSchema. cbn [fst]. destruct (attempt =? 0); reflexivity.
Qed.

Lemma capturedAttempt_first (h : HelperRef) : capturedAttempt h 0 = 0.
Proof. now destruct h. Qed.

Lemma firstHelperTexts_cons (attempt : Z) (c : InjectCall) (calls : list InjectCall) :
  firstHelperTexts attempt (c :: calls)
  = (if capturedAttempt (call_helper c) attempt =? 0 then [call_userPrompt c] else [])
    ++ firstHelperTexts attempt calls.
Proof.
  unfold firstHelperTexts. cbn [filter].
  now destruct (capturedAttempt (call_helper c) attempt =? 0).
Qed.

Lemma firstHelperTexts_app (attempt : Z) (a b : list InjectCall) :
  firstHelperTexts attempt (a ++ b) = firstHelperTexts attempt a ++ firstHelperTexts attempt b.
Proof.
  unfold firstHelperTexts. now rewrite filter_app, map_app.
Qed.

(** The intent after an invocation: every call of the closure of attempt 0
    with a text that is not empty once trimmed replaced it. *)
Lemma invokeRunner_intent (attempt : Z) (lf : option TunnelFailure) (steps : RunnerSteps S E) :
  forall s intent,
    snd (invokeRunner options attempt lf steps s intent)
    = fold_left (fun acc u => if isEmpty (trim u) then acc else trim u)
        (firstHelperTexts attempt
           (fst (fst (fst (invokeRunner options attempt lf steps s intent)))))
        intent.
Proof.
  induction steps as [raw s'|err s'|h u k IH]; intros s intent; cbn [invokeRunner]; auto.
  pose proof (injectSchema_intent (capturedAttempt h attempt) lf intent u) as Hi.
  pose proof (injectSchema_prompt (capturedAttempt h attempt) lf intent u) as Hp.
  destruct (injectSchema options (capturedAttempt h attempt) lf intent u) as [[prompt|] intent'];
    cbn [fst snd] in *.
  - specialize (IH prompt s intent').
    destruct (invokeRunner options attempt lf (k prompt) s intent') as [[[calls e] s''] intent''].
    cbn [fst snd] in *. rewrite firstHelperTexts_cons. cbn [call_helper call_userPrompt].
    rewrite IH, Hi. destruct (capturedAttempt h attempt =? 0); reflexivity.
  - cbn. destruct (capturedAttempt h attempt =? 0); [discriminate|]. exact Hi.
Qed.

(** Every logged call returned what the closure computes from the intent
    left by the calls before it. *)
Lemma invokeRunner_prompts (attempt : Z) (lf : option TunnelFailure) (steps : RunnerSteps S E) :
  forall s intent pre c post,
    fst (fst (fst (invokeRunner options attempt lf steps s intent))) = pre ++ c :: post ->
    fst (injectSchema options (capturedAttempt (call_helper c) attempt) lf
           (fold_left (fun acc u => if isEmpty (trim u) then acc else trim u)
                      (firstHelperTexts attempt pre) intent)
           (call_userPrompt c))
    = Some (call_prompt c).
Proof.
  induction steps as [raw s'|err s'|h u k IH]; intros s intent pre c post; cbn [invokeRunner].
  - cbn. now destruct pre.
  - cbn. now destruct pre.
  - pose proof (injectSchema_intent (capturedAttempt h attempt) lf intent u) as Hi.
    destruct (injectSchema options (capturedAttempt h attempt) lf intent u)
      as [[prompt|] intent'] eqn:Hinj; cbn [fst snd] in *.
    + specialize (IH prompt s intent').
      destruct (invokeRunner options attempt lf (k prompt) s intent')
        as [[[calls e] s''] intent''].
      cbn [fst snd] in *. intros Hcalls.
      destruct pre as [|c0 pre]; cbn [app] in Hcalls; injection Hcalls as Hc Hrest.
      * subst c.
        cbn [firstHelperTexts filter map fold_left call_helper call_userPrompt call_prompt].
        now rewrite Hinj.
      * subst c0. rewrite firstHelperTexts_cons. cbn [call_helper call_userPrompt].
        specialize (IH pre c post Hrest). rewrite Hi in IH.
        destruct (capturedAttempt h attempt =? 0); exact IH.
    + cbn. now destruct pre.
Qed.

(** On attempt 0, or with a previous failure, no call dereferences null. *)
Lemma invokeRunner_no_TypeError (attempt : Z) (lf : option TunnelFailure)
    (steps : RunnerSteps S E) :
  attempt = 0 \/ lf <> None ->
  forall s intent,
    snd (fst (fst (invokeRunner options attempt lf steps s intent))) <> HelperTypeError.
Proof.
  intros Hok.
  induction steps as [raw s'|err s'|h u k IH]; intros s intent; cbn [invokeRunner];
    try (cbn; discriminate).
  pose proof (injectSchema_prompt (capturedAttempt h attempt) lf intent u) as Hp.
  destruct (injectSchema options (capturedAttempt h attempt) lf intent u) as [[prompt|] intent'];
    cbn [fst snd] in *.
  - specialize (IH prompt s intent').
    now destruct (invokeRunner options attempt lf (k prompt) s intent')
      as [[[calls e] s''] intent''].
  - exfalso. destruct (capturedAttempt h attempt =? 0) eqn:Hc; [discriminate|].
    destruct Hok as [-> | Hlf].
    + now rewrite capturedAttempt_first in Hc.
    + destruct lf; [discriminate|congruence].
Qed.

(** *** The loop *)

Lemma lastNonEmptyTrimmed_app (a b : list jsstring) :
  lastNonEmptyTrimmed (a ++ b)
  = fold_left (fun acc u => if isEmpty (trim u) then acc else trim u) b (lastNonEmptyTrimmed a).
Proof. unfold lastNonEmptyTrimmed. apply fold_left_app. Qed.

Lemma firstHelperTextsOfLog_snoc (log : list (AttemptLog E)) (l : AttemptLog E) :
  firstHelperTextsOfLog (log ++ [l])
  = firstHelperTextsOfLog log ++ firstHelperTexts (ctx_attempt (log_context l)) (log_calls l).
Proof.
  unfold firstHelperTextsOfLog. rewrite flat_map_app. cbn [flat_map]. now rewrite app_nil_r.
Qed.

Lemma invariant_initial (s0 : S) : RunInvariant 0 (initialState (E := E) s0).
Proof. now constructor. Qed.

Lemma body_Continue (st st' : RunState S E) :
  body st = Continue st' ->
  exists raw failure,
    ending_at st = Resolved raw /\ failureFromRaw raw = Some failure /\
    st' = failed st failure.
Proof.
  rewrite attemptBody_eq. destruct (ending_at st) as [raw|err|]; try discriminate.
  destruct (failureFromRaw raw) as [failure|] eqn:Hfail.
  - intros Hc. injection Hc as <-. now exists raw, failure.
  - destruct (parse _); discriminate.
Qed.

Lemma invariant_step (k : nat) (st st' : RunState S E) :
  RunInvariant k st -> body st = Continue st' -> RunInvariant (Datatypes.S k) st'.
Proof.
  intros [Ha Hl Hf Hlf Hat Hi] Hb.
  destruct (body_Continue st st' Hb) as (raw & failure & He & Hfail & ->).
  constructor; cbn [afterFailure afterInvocation st_attempt st_log st_failures
                    st_lastFailure st_originalPromptIntent].
  - lia.
  - rewrite length_app. simpl. lia.
  - rewrite !map_app, Hf. cbn [map]. do 2 f_equal.
    unfold logFailure. cbn [log_end]. now rewrite He, Hfail.
  - rewrite map_app. cbn [map]. now rewrite last_last.
  - rewrite map_app, Hat, seq_S, map_app. cbn [map log_context ctx_attempt]. now rewrite Ha.
  - rewrite firstHelperTextsOfLog_snoc, lastNonEmptyTrimmed_app, <- Hi.
    cbn [log_context ctx_attempt log_calls]. unfold invocationAt, callsAt, invocationAt.
    apply invokeRunner_intent.
Qed.

Lemma invariant_reached (k : nat) :
  forall j st st',
    RunInvariant j st -> reached k st = Some st' -> RunInvariant (j + k) st'.
Proof.
  induction k as [|k IH]; intros j st st' Hinv Hr; cbn [stateAt] in Hr.
  - injection Hr as <-. now rewrite Nat.add_0_r.
  - destruct (body st) as [st1|o st1] eqn:Hb; [|discriminate].
    replace (j + Datatypes.S k)%nat with (Datatypes.S j + k)%nat by lia.
    apply (IH _ st1); [|exact Hr]. now apply (invariant_step j st).
Qed.

Lemma reached_invariant (s0 : S) (k : nat) (st : RunState S E) :
  reached k (initialState s0) = Some st -> RunInvariant k st.
Proof.
  intros Hr. apply (invariant_reached k 0 (initialState s0) st (invariant_initial s0) Hr).
Qed.

Lemma reached_succ (k : nat) :
  forall st,
    reached (Datatypes.S k) st =
    match reached k st with
    | Some st' => match body st' with Continue st'' => Some st'' | Settle _ _ => None end
    | None => None
    end.
Proof.
  induction k as [|k IH]; intros st.
  - cbn [stateAt]. now destruct (body st).
  - cbn [stateAt]. destruct (body st) as [st1|o st1]; [|reflexivity].
    specialize (IH st1). cbn [stateAt] in IH. exact IH.
Qed.

(** The run goes through every state that [stateAt] reaches. *)
Lemma runLoop_reached (k : nat) :
  forall fuel st st',
    reached k st = Some st' ->
    runLoop options runner (k + fuel) st = runLoop options runner fuel st'.
Proof.
  induction k as [|k IH]; intros fuel st st' Hr; cbn [stateAt] in Hr.
  - now injection Hr as <-.
  - cbn [Nat.add runLoop]. destruct (body st) as [st1|o st1]; [|discriminate].
    now apply IH.
Qed.

(** With a previous failure when the attempt is not the first, reached
    states never make a helper call fail. *)
Lemma reached_no_TypeError (s0 : S) (k : nat) (st : RunState S E) :
  reached k (initialState s0) = Some st -> ending_at st <> HelperTypeError.
Proof.
  intros Hr. destruct (reached_invariant s0 k st Hr) as [Ha Hl Hf Hlf _ _].
  unfold endingAt, invocationAt. apply invokeRunner_no_TypeError.
  destruct k as [|k]; [now left|right].
  rewrite Hlf. assert (Hlen : length (st_failures st) = Datatypes.S k).
  { rewrite <- (length_map Some), Hf, length_map. exact Hl. }
  destruct (st_failures st) as [|f fs] using rev_ind; [discriminate|].
  rewrite map_app. cbn [map]. rewrite last_last. discriminate.
Qed.

Lemma run_from_reached (s0 : S) (k : nat) (st : RunState S E) :
  Z.of_nat k <= m -> reached k (initialState s0) = Some st ->
  run options runner s0 =
  match body st with
  | Continue st' => runLoop options runner (Z.to_nat (m + 1) - Datatypes.S k) st'
  | Settle outcome st' => (outcome, st')
  end.
Proof.
  intros Hk Hr. unfold run.
  replace (Z.to_nat (m + 1))
    with (k + Datatypes.S (Z.to_nat (m + 1) - Datatypes.S k))%nat at 1 by lia.
  rewrite (runLoop_reached k _ _ st Hr). reflexivity.
Qed.

(** *** Exhaustion *)

Lemma always_failing_reaches (s0 : S) :
  (forall k st, Z.of_nat k <= m -> reached k (initialState s0) = Some st ->
     exists raw, ending_at st = Resolved raw /\ failureFromRaw raw <> None) ->
  forall k, Z.of_nat k <= m + 1 -> exists st, reached k (initialState s0) = Some st.
Proof.
  intros Hfail. induction k as [|k IH]; intros Hk.
  - now exists (initialState s0).
  - destruct (IH ltac:(lia)) as [st Hst].
    destruct (Hfail k st ltac:(lia) Hst) as (raw & He & Hf).
    rewrite reached_succ, Hst, attemptBody_eq, He.
    destruct (failureFromRaw raw) as [failure|]; [|congruence].
    now exists (failed st failure).
Qed.

(** C1. With [maxRetries >= 0] and a runner whose output fails extraction or
    validation on every attempt of the run, [run] rejects with
    [TunnelMaxRetriesError]: the runner was invoked [maxRetries + 1] times
    (one log entry each, numbered 0, 1, ...), the error carries
    [maxRetries + 1] failures, the i-th being the one derived from the raw
    output of attempt i, and its message states [maxRetries + 1]. With
    [maxRetries = 1] there are two failures. *)
Theorem run_exhausts_retries (s0 : S) :
  0 <= m ->
  (forall k st, Z.of_nat k <= m -> reached k (initialState s0) = Some st ->
     exists raw, ending_at st = Resolved raw /\ failureFromRaw raw <> None) ->
  exists failures st',
    run options runner s0
    = (TunnelMaxRetriesError
         (lit "Failed to produce valid output after " +++ numToString (m + 1)
          +++ lit " attempts.") failures, st') /\
    st_failures st' = failures /\
    length (st_log st') = Z.to_nat (m + 1) /\
    length failures = Z.to_nat (m + 1) /\
    map Some failures = map logFailure (st_log st') /\
    map (fun l => ctx_attempt (log_context l)) (st_log st')
    = map Z.of_nat (seq 0 (Z.to_nat (m + 1))) /\
    (m = 1 -> length failures = 2%nat).
Proof.
  intros Hm Hfail.
  destruct (always_failing_reaches s0 Hfail (Z.to_nat (m + 1)) ltac:(lia)) as [st Hst].
  destruct (reached_invariant s0 _ st Hst) as [Ha Hl Hf Hlf Hat Hi].
  assert (Hlen : length (st_failures st) = Z.to_nat (m + 1)).
  { rewrite <- (length_map Some), Hf, length_map. exact Hl. }
  exists (st_failures st), st. repeat split; auto.
  - unfold run. rewrite <- (Nat.add_0_r (Z.to_nat (m + 1))).
    rewrite (runLoop_reached _ _ _ st Hst). reflexivity.
  - intros H1. rewrite Hlen, H1. reflexivity.
Qed.

(** *** Success and runner errors *)

Lemma validates_no_failure (raw jsonText : jsstring) (value : JsValue) (validated : Output) :
  extractJsonText raw = Some jsonText -> JSON_parse jsonText = inl value ->
  safeParse value = inl validated ->
  failureFromRaw raw = None /\
  parse (match extractAndParseJson raw with
         | ExtractOk _ v => v
         | ExtractFail _ _ _ => js_undefined
         end) = inl validated.
Proof.
  intros He Hp Hs. unfold failureFromRaw, parse.
  rewrite (extractAndParseJson_of_span raw jsonText He (extractJsonText_nonempty _ _ He)).
  now rewrite Hp, Hs.
Qed.

(** C2, as the code has it. If on attempt [k <= maxRetries] the span that
    [extractJsonText] selects from the runner's raw text decodes and passes
    the schema, [run] fulfils with the validated value right after that
    attempt: the log ends with attempt [k] (the runner was invoked [k + 1]
    times), the failures are the [k] earlier ones, and no
    [TunnelMaxRetriesError] is raised. *)
Theorem run_returns_on_first_valid (s0 : S) (k : nat) (st : RunState S E)
    (raw jsonText : jsstring) (value : JsValue) (validated : Output) :
  Z.of_nat k <= m ->
  reached k (initialState s0) = Some st ->
  ending_at st = Resolved raw ->
  extractJsonText raw = Some jsonText ->
  JSON_parse jsonText = inl value ->
  safeParse value = inl validated ->
  run options runner s0 = (Fulfilled validated, logged st) /\
  length (st_log (logged st)) = Datatypes.S k /\
  st_failures (logged st) = st_failures st /\
  length (st_failures st) = k.
Proof.
  intros Hk Hr He Hx Hp Hs.
  destruct (validates_no_failure raw jsonText value validated Hx Hp Hs) as [Hnone Hparse].
  destruct (reached_invariant s0 k st Hr) as [Ha Hl Hf Hlf Hat Hi].
  split; [|split; [|split]].
  - rewrite (run_from_reached s0 k st Hk Hr), attemptBody_eq, He, Hnone, Hparse. reflexivity.
  - cbn [afterInvocation st_log]. rewrite length_app. simpl. lia.
  - reflexivity.
  - rewrite <- (length_map Some), Hf, length_map. exact Hl.
Qed.

(** C8. If the runner rejects on attempt [k <= maxRetries], [run] rejects
    with that very error: the log ends with attempt [k], no failure is
    recorded for it, and the outcome is not [TunnelMaxRetriesError]. *)
Theorem run_propagates_runner_error (s0 : S) (k : nat) (st : RunState S E) (err : E) :
  Z.of_nat k <= m ->
  reached k (initialState s0) = Some st ->
  ending_at st = Rejected err ->
  run options runner s0 = (RunnerError err, logged st) /\
  length (st_log (logged st)) = Datatypes.S k /\
  st_failures (logged st) = st_failures st /\
  length (st_failures st) = k.
Proof.
  intros Hk Hr He.
  destruct (reached_invariant s0 k st Hr) as [Ha Hl Hf Hlf Hat Hi].
  split; [|split; [|split]].
  - rewrite (run_from_reached s0 k st Hk Hr), attemptBody_eq, He. reflexivity.
  - cbn [afterInvocation st_log]. rewrite length_app. simpl. lia.
  - reflexivity.
  - rewrite <- (length_map Some), Hf, length_map. exact Hl.
Qed.

(** *** Prompts *)


Lemma trim_lastNonEmptyTrimmed (texts : list jsstring) :
  trim (lastNonEmptyTrimmed texts) = lastNonEmptyTrimmed texts.
Proof.
  induction texts as [|u texts IH] using rev_ind; [reflexivity|].
  rewrite lastNonEmptyTrimmed_app. cbn [fold_left].
  destruct (isEmpty (trim u)); [exact IH|apply trim_idem].
Qed.

Lemma failureFromRaw_raw (raw : jsstring) (failure : TunnelFailure) :
  failureFromRaw raw = Some failure -> failure_raw failure = raw.
Proof.
  unfold failureFromRaw. destruct (extractAndParseJson raw) as [t v|[] msg t].
  - destruct (safeParse v); [discriminate|]. now intros [= <-].
  - now intros [= <-].
  - now intros [= <-].
Qed.

(** A prompt returned by a closure of an attempt above 0 is the corrective
    prompt built from the intent at that moment and the last failure. *)
Lemma corrective_prompt (s0 : S) (k : nat) (st : RunState S E)
    (pre : list InjectCall) (c : InjectCall) (post : list InjectCall) :
  reached k (initialState s0) = Some st ->
  calls_at st = pre ++ c :: post ->
  capturedAttempt (call_helper c) (Z.of_nat k) <> 0 ->
  exists failure,
    st_lastFailure st = Some failure /\
    call_prompt c =
    buildFixPrompt options
      (lastNonEmptyTrimmed (firstHelperTextsOfLog (st_log st)
                            ++ firstHelperTexts (Z.of_nat k) pre))
      failure.
Proof.
  intros Hr Hcalls Hcap.
  destruct (reached_invariant s0 k st Hr) as [Ha Hl Hf Hlf Hat Hi].
  unfold callsAt, invocationAt in Hcalls.
  pose proof (invokeRunner_prompts _ _ _ _ _ pre c post Hcalls) as Hp.
  rewrite injectSchema_prompt, Ha in Hp.
  destruct (capturedAttempt (call_helper c) (Z.of_nat k) =? 0) eqn:Hz; [lia|].
  destruct (st_lastFailure st) as [failure|]; [|discriminate].
  exists failure. split; [reflexivity|].
  cbn [option_map] in Hp. injection Hp as <-.
  now rewrite lastNonEmptyTrimmed_app, Hi.
Qed.

(** The failure handed to attempt [k > 0] is the one derived from the raw
    output of attempt [k - 1]. *)
Lemma lastFailure_previous (s0 : S) (k : nat) (st : RunState S E) (failure : TunnelFailure) :
  reached k (initialState s0) = Some st ->
  st_lastFailure st = Some failure ->
  exists l raw,
    nth_error (st_log st) (k - 1) = Some l /\
    log_end l = Resolved raw /\
    failureFromRaw raw = Some failure /\
    failure_raw failure = raw.
Proof.
  intros Hr Hsome.
  destruct (reached_invariant s0 k st Hr) as [Ha Hl Hf Hlf Hat Hi].
  rewrite Hlf, Hf in Hsome.
  destruct (st_log st) as [|l log] using rev_ind; [discriminate|].
  rewrite map_app in Hsome. cbn [map] in Hsome. rewrite last_last in Hsome.
  rewrite length_app in Hl. simpl in Hl.
  unfold logFailure in Hsome. destruct (log_end l) as [raw| |] eqn:He; try discriminate.
  exists l, raw. repeat split; auto.
  - rewrite nth_error_app2 by lia. replace (k - 1 - length log)%nat with 0%nat by lia.
    reflexivity.
  - now apply failureFromRaw_raw.
Qed.






Lemma includes_length (s needle : jsstring) :
  includes s needle = true -> (length needle <= length s)%nat.
Proof.
  assert (Hsw : forall a b, startsWith a b = true -> (length b <= length a)%nat).
  { intros a b. revert a.
    induction b as [|y b IH]; intros [|x a]; simpl; try lia; try discriminate.
    rewrite andb_true_iff. intros [_ Hs]. apply IH in Hs. lia. }
  induction s as [|x s IH]; cbn [includes]; rewrite orb_true_iff.
  - intros [Hs | Hs]; [now apply Hsw|discriminate].
  - intros [Hs | Hs]; [now apply Hsw|]. apply IH in Hs. simpl. lia.
Qed.

Lemma failureFromRaw_schema (raw message r jsonText issuesText : jsstring) :
  failureFromRaw raw = Some (FailSchema message r jsonText issuesText) ->
  exists value issues,
    extractAndParseJson raw = ExtractOk jsonText value /\
    safeParse value = inr issues /\
    issuesText = formatZodIssues issues.
Proof.
  unfold failureFromRaw. destruct (extractAndParseJson raw) as [t v|[] msg t]; try discriminate.
  destruct (safeParse v) as [d|issues] eqn:Hs; [discriminate|].
  intros [= <- <- <- <-]. now exists v, issues.
Qed.

(** C6, as the code has it. A corrective prompt is, joined by blank lines
    and in this order: the trimmed system prompt when one is configured and
    not blank; the preamble declaring the previous response invalid and the
    request for corrected JSON; the strict rules, which end with the
    rendered schema; the message of the failure of the previous attempt; the
    formatted schema issues exactly when that failure is a schema mismatch;
    the locked intent under its label unless it is empty; and the previous
    raw output as [truncate] leaves it. *)
Theorem corrective_prompt_parts (s0 : S) (k : nat) (st : RunState S E)
    (pre : list InjectCall) (c : InjectCall) (post : list InjectCall) :
  reached k (initialState s0) = Some st ->
  calls_at st = pre ++ c :: post ->
  capturedAttempt (call_helper c) (Z.of_nat k) <> 0 ->
  exists failure raw previous,
    nth_error (st_log st) (k - 1) = Some previous /\
    log_end previous = Resolved raw /\
    failureFromRaw raw = Some failure /\
    (let intent :=
       lastNonEmptyTrimmed (firstHelperTextsOfLog (st_log st)
                            ++ firstHelperTexts (Z.of_nat k) pre) in
     call_prompt c =
     join (LF +++ LF)
       ((match systemPrompt options with
         | Some s => if isEmpty (trim s) then [] else [trim s]
         | None => []
         end)
        ++ [ lit "Your previous response was invalid.";
             lit "Return ONLY corrected JSON.";
             STRICT_RULES options ]
        ++ [ lit "Validation problems:" +++ LF +++ failure_message failure ]
        ++ (match failure with
            | FailSchema _ _ _ issuesText => [lit "Schema issues:" +++ LF +++ issuesText]
            | _ => []
            end)
        ++ (if isEmpty intent then []
            else [lit "Original request context:" +++ LF +++ intent])
        ++ [ lit "Previous output:" +++ LF +++ lit "```text" +++ LF
             +++ truncate options raw +++ LF +++ lit "```" ])) /\
    STRICT_RULES options =
      lit "Return ONLY a valid JSON value that can be parsed by JSON.parse()." +++ LF
      +++ lit "Do not wrap the JSON in Markdown fences." +++ LF
      +++ lit "The JSON MUST conform to this TypeScript definition:" +++ LF
      +++ lit "```ts" +++ LF +++ schemaTs options +++ LF +++ lit "```" /\
    (forall message r jsonText issuesText,
       failure = FailSchema message r jsonText issuesText ->
       exists value issues,
         extractAndParseJson raw = ExtractOk jsonText value /\
         safeParse value = inr issues /\
         issuesText = formatZodIssues issues).
Proof.
  intros Hr Hcalls Hcap.
  destruct (corrective_prompt s0 k st pre c post Hr Hcalls Hcap) as (failure & Hlf & Hp).
  destruct (lastFailure_previous s0 k st failure Hr Hlf) as (l & raw & Hnth & He & Hf & Hraw).
  exists failure, raw, l. split; [exact Hnth|]. split; [exact He|]. split; [exact Hf|].
  split; [|split].
  - cbv zeta. rewrite Hp. unfold buildFixPrompt, fixPromptParts, systemPromptParts,
      schemaIssuesParts, originalContextParts, previousOutputPart.
    now rewrite trim_lastNonEmptyTrimmed, Hraw.
  - unfold STRICT_RULES. cbn [join]. now rewrite <- ?app_assoc.
  - intros message r jsonText issuesText ->. now apply (failureFromRaw_schema raw message r).
Qed.

(** C7, as the code has it. With a threshold [max >= 0], the last part of a
    corrective prompt is the previous-output section. When the previous raw
    output is longer than [max] the section holds its first [max]
    characters, which are not the whole of it, followed by the truncation
    marker; when it is at most [max] long the section holds it whole and
    [truncate] adds nothing. The default threshold is 4000. *)
Theorem corrective_prompt_truncates (s0 : S) (k : nat) (st : RunState S E)
    (pre : list InjectCall) (c : InjectCall) (post : list InjectCall) :
  0 <= maxFailureOutputCharsOf options ->
  reached k (initialState s0) = Some st ->
  calls_at st = pre ++ c :: post ->
  capturedAttempt (call_helper c) (Z.of_nat k) <> 0 ->
  exists failure front section,
    st_lastFailure st = Some failure /\
    call_prompt c = join (LF +++ LF) (front ++ [section]) /\
    (let raw := failure_raw failure in
     let max := maxFailureOutputCharsOf options in
     let excerpt := firstn (Z.to_nat max) raw in
     (max < jslength raw ->
      section = lit "Previous output:" +++ LF +++ lit "```text" +++ LF
                +++ excerpt +++ LF +++ lit "...<truncated>" +++ LF +++ lit "```" /\
      jslength excerpt = max /\
      includes excerpt raw = false) /\
     (jslength raw <= max ->
      section = lit "Previous output:" +++ LF +++ lit "```text" +++ LF
                +++ raw +++ LF +++ lit "```")) /\
    (maxFailureOutputChars options = None -> maxFailureOutputCharsOf options = 4000).
Proof.
  intros Hmax Hr Hcalls Hcap.
  destruct (corrective_prompt s0 k st pre c post Hr Hcalls Hcap) as (failure & Hlf & Hp).
  exists failure. eexists. exists (previousOutputPart options failure).
  split; [exact Hlf|]. split; [|split].
  - rewrite Hp. unfold buildFixPrompt, fixPromptParts. rewrite !app_assoc. reflexivity.
  - cbv zeta. unfold previousOutputPart, truncate. split.
    + intros Hlong.
      destruct (jslength (failure_raw failure) <=? maxFailureOutputCharsOf options) eqn:Hle; [lia|].
      rewrite slice_firstn_skipn by lia. rewrite Z.sub_0_r. cbn [Z.to_nat skipn].
      assert (Hlen : jslength (firstn (Z.to_nat (maxFailureOutputCharsOf options))
                                      (failure_raw failure))
                     = maxFailureOutputCharsOf options).
      { unfold jslength in *. rewrite length_firstn. lia. }
      split; [now rewrite <- ?app_assoc|]. split; [exact Hlen|].
      destruct (includes _ (failure_raw failure)) eqn:Hinc; [|reflexivity].
      apply includes_length in Hinc. unfold jslength in *. lia.
    + intros Hshort.
      destruct (jslength (failure_raw failure) <=? maxFailureOutputCharsOf options) eqn:Hle; [|lia].
      now rewrite <- ?app_assoc.
  - unfold maxFailureOutputCharsOf. now intros ->.
Qed.

End TunnelProperties.

(** ** Concrete runs

    The statements above at the runs of [Scenarios], on the reference
    decoder and schema. *)

#[local] Existing Instance Reference.decoder.
#[local] Existing Instance Reference.objectA.

Import Scenarios.

(** [maxRetries = 1] and a runner that never returns JSON: two invocations,
    two failures. *)
Lemma run_exhausts_retries_witness :
  let options := withOptions (Some 1) None in
  0 <= maxRetriesOf options /\
  (forall k st, Z.of_nat k <= maxRetriesOf options ->
     stateAt options neverJson k (initialState tt) = Some st ->
     exists raw, endingAt options neverJson st = Resolved raw /\ failureFromRaw raw <> None) /\
  exists failures st',
    run options neverJson tt
    = (TunnelMaxRetriesError (lit "Failed to produce valid output after 2 attempts.")
         failures, st') /\
    length (st_log st') = 2%nat /\
    length failures = 2%nat.
Proof.
  cbv zeta.
  assert (Hm : 0 <= maxRetriesOf (withOptions (Some 1) None)) by (cbn; lia).
  assert (Hfail : forall k st,
    Z.of_nat k <= maxRetriesOf (withOptions (Some 1) None) ->
    stateAt (withOptions (Some 1) None) neverJson k (initialState tt) = Some st ->
    exists raw, endingAt (withOptions (Some 1) None) neverJson st = Resolved raw
                /\ failureFromRaw raw <> None).
  { intros [|[|k]] st Hk Hr.
    - injection Hr as <-. exists (lit "not json"). split; [reflexivity|discriminate].
    - vm_compute in Hr. injection Hr as <-. exists (lit "not json").
      split; [vm_compute; reflexivity|discriminate].
    - cbn in Hk. lia. }
  split; [exact Hm|]. split; [exact Hfail|].
  destruct (@run_exhausts_retries Reference.decoder Reference.objectA
              (withOptions (Some 1) None) unit jsstring neverJson tt Hm Hfail)
    as (failures & st' & Hrun & _ & Hlog & Hlen & _).
  exists failures, st'. split; [exact Hrun|]. split; [exact Hlog|exact Hlen].
Defined.

(** The runner of the locked-intent test succeeds on attempt 1. *)
Lemma run_returns_on_first_valid_witness :
  let options := withOptions (Some 2) None in
  exists st,
    Z.of_nat 1 <= maxRetriesOf options /\
    stateAt options changesIntent 1 (initialState tt) = Some st /\
    endingAt options changesIntent st = Resolved (litq "{'a': 10}") /\
    extractJsonText (litq "{'a': 10}") = Some (litq "{'a': 10}") /\
    JSON_parse (litq "{'a': 10}")
    = inl (Reference.JObject [(lit "a", Reference.JNumber (lit "10"))]) /\
    safeParse (Reference.JObject [(lit "a", Reference.JNumber (lit "10"))])
    = inl (Reference.JObject [(lit "a", Reference.JNumber (lit "10"))]) /\
    run options changesIntent tt
    = (Fulfilled (Reference.JObject [(lit "a", Reference.JNumber (lit "10"))]),
       afterInvocation options changesIntent st) /\
    length (st_failures st) = 1%nat.
Proof.
  cbv zeta. second_attempt st Hr Hst. exists st.
  assert (Hk : Z.of_nat 1 <= maxRetriesOf (withOptions (Some 2) None)) by (cbn; lia).
  assert (He : endingAt (withOptions (Some 2) None) changesIntent st
               = Resolved (litq "{'a': 10}"))
    by (rewrite <- Hst; vm_compute; reflexivity).
  destruct (@run_returns_on_first_valid Reference.decoder Reference.objectA
              (withOptions (Some 2) None) unit jsstring
              changesIntent tt 1 st (litq "{'a': 10}") (litq "{'a': 10}")
              (Reference.JObject [(lit "a", Reference.JNumber (lit "10"))])
              (Reference.JObject [(lit "a", Reference.JNumber (lit "10"))])
              Hk Hr He eq_refl eq_refl eq_refl)
    as (Hrun & _ & _ & Hlen).
  repeat split; auto.
Defined.

(** C2 as stated fails: the raw text [[x] {"a":1}] contains the balanced
    span [{"a":1}], which decodes and passes the schema, yet the run with
    [maxRetries = 0] rejects with [TunnelMaxRetriesError], because the
    extractor takes the span that starts at the first opener. *)
Lemma valid_span_after_note_not_returned :
  let options := withOptions (Some 0) None in
  let raw := litq "[x] {'a':1}" in
  let span := slice raw 4 11 in
  endingAt options noteThenObject (initialState tt) = Resolved raw /\
  span = litq "{'a':1}" /\
  extractJsonText span = Some span /\
  JSON_parse span = inl (Reference.JObject [(lit "a", Reference.JNumber (lit "1"))]) /\
  safeParse (Reference.JObject [(lit "a", Reference.JNumber (lit "1"))])
  = inl (Reference.JObject [(lit "a", Reference.JNumber (lit "1"))]) /\
  fst (run options noteThenObject tt)
  = TunnelMaxRetriesError (lit "Failed to produce valid output after 1 attempts.")
      [FailInvalidJson (lit "Unexpected token in JSON") raw (Some (litq "[x]"))].
Proof.
  cbv zeta. repeat split; vm_compute; reflexivity.
Qed.

(** The provider fails on attempt 1: the error comes out, one failure was
    recorded before it. *)
Lemma run_propagates_runner_error_witness :
  let options := withOptions (Some 1) None in
  exists st,
    Z.of_nat 1 <= maxRetriesOf options /\
    stateAt options failsSecond 1 (initialState tt) = Some st /\
    endingAt options failsSecond st = Rejected (lit "network down") /\
    run options failsSecond tt
    = (RunnerError (lit "network down"), afterInvocation options failsSecond st) /\
    length (st_log (afterInvocation options failsSecond st)) = 2%nat /\
    length (st_failures st) = 1%nat.
Proof.
  cbv zeta. second_attempt st Hr Hst. exists st.
  assert (Hk : Z.of_nat 1 <= maxRetriesOf (withOptions (Some 1) None)) by (cbn; lia).
  assert (He : endingAt (withOptions (Some 1) None) failsSecond st
               = Rejected (lit "network down"))
    by (rewrite <- Hst; vm_compute; reflexivity).
  destruct (@run_propagates_runner_error Reference.decoder Reference.objectA
              (withOptions (Some 1) None) unit jsstring
              failsSecond tt 1 st (lit "network down") Hk Hr He)
    as (Hrun & Hlog & _ & Hlen).
  repeat split; auto.
Defined.



(** A helper kept from attempt 0 and called on attempt 1 replaces the
    intent: the corrective prompt that follows is built from the later
    text. This is why C3 speaks of the helper of each attempt. *)
Example retained_helper_replaces_intent :
  let options := withOptions (Some 1) None in
  exists st base corrective failure,
    stateAt options keepsFirstHelper 1 (initialState tt) = Some st /\
    callsAt options keepsFirstHelper st = [base; corrective] /\
    call_helper base = FirstAttemptHelper /\
    call_prompt base = buildBasePrompt options (lit "later text") /\
    st_lastFailure st = Some failure /\
    call_prompt corrective = buildFixPrompt options (lit "later text") failure.
Proof.
  cbv zeta. do 4 eexists.
  split; [vm_compute; reflexivity|].
  split; [vm_compute; reflexivity|].
  split; [reflexivity|].
  split; [vm_compute; reflexivity|].
  split; vm_compute; reflexivity.
Qed.

(** After a schema mismatch the corrective prompt carries the issues. *)
Lemma corrective_prompt_parts_witness :
  let options := withOptions (Some 2) None in
  exists st c,
    stateAt options changesIntent 1 (initialState tt) = Some st /\
    callsAt options changesIntent st = [] ++ c :: [] /\
    capturedAttempt (call_helper c) (Z.of_nat 1) <> 0 /\
    exists failure raw previous,
      nth_error (st_log st) 0 = Some previous /\
      log_end previous = Resolved raw /\
      failureFromRaw raw = Some failure /\
      failure = FailSchema (lit "Output JSON did not match the schema.")
                           (litq "{'a': 'bad'}") (litq "{'a': 'bad'}")
                           (lit "- a: Expected number").
Proof.
  cbv zeta. second_attempt st Hr Hst.
  single_call (withOptions (Some 2) None) changesIntent st Hst c Hc Hh.
  assert (Hcap : capturedAttempt (call_helper c) (Z.of_nat 1) <> 0)
    by (rewrite Hh; cbn; lia).
  destruct (@corrective_prompt_parts Reference.decoder Reference.objectA
              (withOptions (Some 2) None) unit jsstring changesIntent tt 1 st [] c []
              Hr Hc Hcap)
    as (failure & raw & previous & Hn & He & Hf & _).
  exists st, c. split; [reflexivity|]. split; [exact Hc|]. split; [exact Hcap|].
  exists failure, raw, previous. split; [exact Hn|]. split; [exact He|]. split; [exact Hf|].
  rewrite <- Hst in Hn. cbn in Hn. injection Hn as <-. cbn in He. injection He as <-.
  vm_compute in Hf. now injection Hf as <-.
Defined.

(** C6 as stated fails: with a threshold of 3 the corrective prompt after
    the raw output [zzzzzzzz] does not contain that output. *)
Lemma corrective_prompt_lacks_long_raw_output :
  let options := withOptions (Some 1) (Some 3) in
  exists st c,
    stateAt options longAnswer 1 (initialState tt) = Some st /\
    callsAt options longAnswer st = [c] /\
    capturedAttempt (call_helper c) 1 <> 0 /\
    st_lastFailure st
    = Some (FailNoJson (lit "No JSON object/array found in model output.")
                       (lit "zzzzzzzz")) /\
    includes (call_prompt c) (lit "zzzzzzzz") = false.
Proof.
  cbv zeta. eexists. eexists.
  split; [vm_compute; reflexivity|].
  split; [vm_compute; reflexivity|].
  split; [cbn; lia|].
  split; vm_compute; reflexivity.
Qed.

(** The truncation test: a threshold of 3 and the raw output [zzzzzzzz]. *)
Lemma corrective_prompt_truncates_witness :
  let options := withOptions (Some 1) (Some 3) in
  exists st c,
    0 <= maxFailureOutputCharsOf options /\
    stateAt options longAnswer 1 (initialState tt) = Some st /\
    callsAt options longAnswer st = [] ++ c :: [] /\
    capturedAttempt (call_helper c) (Z.of_nat 1) <> 0 /\
    exists failure front section,
      st_lastFailure st = Some failure /\
      call_prompt c = join (LF +++ LF) (front ++ [section]) /\
      section = lit "Previous output:" +++ LF +++ lit "```text" +++ LF
                +++ lit "zzz" +++ LF +++ lit "...<truncated>" +++ LF +++ lit "```".
Proof.
  cbv zeta. second_attempt st Hr Hst.
  single_call (withOptions (Some 1) (Some 3)) longAnswer st Hst c Hc Hh.
  assert (Hcap : capturedAttempt (call_helper c) (Z.of_nat 1) <> 0)
    by (rewrite Hh; cbn; lia).
  assert (Hmax : 0 <= maxFailureOutputCharsOf (withOptions (Some 1) (Some 3)))
    by (cbn; lia).
  destruct (@corrective_prompt_truncates Reference.decoder Reference.objectA
              (withOptions (Some 1) (Some 3)) unit jsstring longAnswer tt 1 st [] c []
              Hmax Hr Hc Hcap)
    as (failure & front & section & Hlf & Hp & [Hlong _] & _).
  exists st, c. split; [exact Hmax|]. split; [reflexivity|]. split; [exact Hc|].
  split; [exact Hcap|]. exists failure, front, section.
  split; [exact Hlf|]. split; [exact Hp|].
  rewrite <- Hst in Hlf. cbn in Hlf. injection Hlf as <-.
  destruct Hlong as [-> _]; [vm_compute; reflexivity|reflexivity].
Defined.

(** C7 as stated fails: the model repeats the request, 19 characters long,
    the threshold is 8, and the corrective prompt contains the whole raw
    output, in its original-context part. *)
Lemma corrective_prompt_contains_echoed_output :
  let options := withOptions (Some 1) (Some 8) in
  exists st c failure,
    stateAt options echoesRequest 1 (initialState tt) = Some st /\
    callsAt options echoesRequest st = [c] /\
    capturedAttempt (call_helper c) 1 <> 0 /\
    st_lastFailure st = Some failure /\
    failure_raw failure = lit "Summarise this text" /\
    maxFailureOutputCharsOf options < jslength (failure_raw failure) /\
    includes (call_prompt c) (failure_raw failure) = true.
Proof.
  cbv zeta. eexists. eexists. eexists.
  split; [vm_compute; reflexivity|].
  split; [vm_compute; reflexivity|].
  split; [cbn; lia|].
  split; [vm_compute; reflexivity|].
  split; [reflexivity|].
  split; vm_compute; reflexivity.
Qed.

(** A negative threshold makes [slice] count from the end of the string. *)
Example truncate_negative_threshold :
  truncate (withOptions None (Some (-1))) (lit "abc")
  = lit "ab" +++ LF +++ lit "...<truncated>".
Proof. reflexivity. Qed.

(** * Further properties *)

(** ** The extractor and the text around the span *)

Lemma firstClose_bound (rest : jsstring) :
  forall st p,
    firstClose st rest = Some p ->
    (p < length rest)%nat /\
    exists ch, nth_error rest p = Some ch /\ isCloser ch = true.
Proof.
  induction rest as [|ch rest IH]; intros st p; cbn [firstClose]; [discriminate|].
  destruct (closesHere st ch) eqn:Hc.
  - intros [= <-]. apply closesHere_true in Hc. destruct Hc as (_ & Hc & _).
    split; [simpl; lia|]. now exists ch.
  - destruct (firstClose (scanStep st ch) rest) as [q|] eqn:Hq; [|discriminate].
    intros [= <-]. destruct (IH _ _ Hq) as [Hlt Hch]. split; [simpl; lia|exact Hch].
Qed.

Lemma firstClose_app (rest more : jsstring) :
  forall st p, firstClose st rest = Some p -> firstClose st (rest ++ more) = Some p.
Proof.
  induction rest as [|ch rest IH]; intros st p; cbn [firstClose app]; [discriminate|].
  destruct (closesHere st ch); [auto|].
  destruct (firstClose (scanStep st ch) rest) as [q|] eqn:Hq; [|discriminate].
  intros [= <-]. now rewrite (IH _ _ Hq).
Qed.

Lemma firstClose_firstn (rest : jsstring) :
  forall st p,
    firstClose st rest = Some p -> firstClose st (firstn (Datatypes.S p) rest) = Some p.
Proof.
  induction rest as [|ch rest IH]; intros st p; cbn [firstClose]; [discriminate|].
  destruct (closesHere st ch) eqn:Hc.
  - intros [= <-]. cbn [firstn firstClose]. now rewrite Hc.
  - destruct (firstClose (scanStep st ch) rest) as [q|] eqn:Hq; [|discriminate].
    intros [= <-].
    change (firstn (Datatypes.S (Datatypes.S q)) (ch :: rest))
      with (ch :: firstn (Datatypes.S q) rest).
    cbn [firstClose]. now rewrite Hc, (IH _ _ Hq).
Qed.

(** [extractJsonText] through [firstClose]. *)
Lemma extractJsonText_eq (text : jsstring) :
  extractJsonText text =
  match findJsonStartIndex text with
  | None => None
  | Some start =>
    option_map (fun p => slice text start (start + Z.of_nat p + 1))
               (firstClose scanStart (skipn (Z.to_nat start) text))
  end.
Proof.
  unfold extractJsonText. destruct (findJsonStartIndex text) as [start|]; [|reflexivity].
  exact (extractJsonText_loop_firstClose text start _ start scanStart).
Qed.

Lemma findJsonStartIndex_first (text : jsstring) (start : Z) :
  firstOpenerAt text start -> findJsonStartIndex text = Some start.
Proof.
  intros Hf. pose proof (findJsonStartIndex_spec text) as Hs.
  pose proof (firstOpenerAt_range _ _ Hf) as Hr.
  destruct (findJsonStartIndex text) as [start'|].
  - destruct Hs as [Hr' Hf']. f_equal. apply (firstOpenerAt_unique text); auto; lia.
  - now destruct (firstOpenerAt_not_noOpener _ _ Hf).
Qed.

Lemma findJsonStartIndex_noOpener (text : jsstring) :
  noOpener text -> findJsonStartIndex text = None.
Proof.
  intros Hno. pose proof (findJsonStartIndex_spec text) as Hs.
  destruct (findJsonStartIndex text) as [start|]; [|reflexivity].
  destruct Hs as [_ Hf]. now destruct (firstOpenerAt_not_noOpener _ _ Hf).
Qed.

Lemma firstOpenerAt_app (text more : jsstring) (start : Z) :
  firstOpenerAt text start -> firstOpenerAt (text ++ more) start.
Proof.
  intros Hf. pose proof (firstOpenerAt_range _ _ Hf) as Hr. unfold jslength in Hr.
  destruct Hf as [(ch & Hch & Ho) Hmin]. split.
  - exists ch. split; [|exact Ho]. rewrite charAt_nth in * by lia.
    rewrite nth_error_app1 by lia. exact Hch.
  - intros j c Hj Hc. apply (Hmin j c Hj). rewrite charAt_nth in * by lia.
    rewrite nth_error_app1 in Hc by lia. exact Hc.
Qed.

Lemma firstOpenerAt_after (before text : jsstring) (start : Z) :
  noOpener before -> firstOpenerAt text start ->
  firstOpenerAt (before ++ text) (jslength before + start).
Proof.
  intros Hno Hf. pose proof (firstOpenerAt_range _ _ Hf) as Hr. unfold jslength in *.
  destruct Hf as [(ch & Hch & Ho) Hmin]. split.
  - exists ch. split; [|exact Ho]. rewrite charAt_nth in * by lia.
    rewrite nth_error_app2 by lia.
    replace (Z.to_nat (Z.of_nat (length before) + start) - length before)%nat
      with (Z.to_nat start) by lia.
    exact Hch.
  - intros j c Hj Hc. rewrite charAt_nth in Hc by lia.
    destruct (Z.lt_ge_cases j (Z.of_nat (length before))) as [Hlt | Hge].
    + rewrite nth_error_app1 in Hc by lia. apply Hno. eapply nth_error_In; eauto.
    + rewrite nth_error_app2 in Hc by lia.
      apply (Hmin (j - Z.of_nat (length before)) c); [lia|].
      rewrite charAt_nth by lia.
      replace (Z.to_nat (j - Z.of_nat (length before)))
        with (Z.to_nat j - length before)%nat by lia.
      exact Hc.
Qed.

Lemma slice_app_l (text more : jsstring) (a b : Z) :
  0 <= a <= b -> b <= jslength text -> slice (text ++ more) a b = slice text a b.
Proof.
  intros Hab Hb. unfold jslength in Hb.
  rewrite !slice_firstn_skipn by (unfold jslength; rewrite ?length_app; lia).
  rewrite skipn_app, firstn_app, length_skipn.
  replace (Z.to_nat (b - a) - (length text - Z.to_nat a))%nat with 0%nat by lia.
  replace (Z.to_nat a - length text)%nat with 0%nat by lia.
  cbn [firstn skipn]. now rewrite app_nil_r.
Qed.

Lemma slice_app_r (before text : jsstring) (a b : Z) :
  0 <= a <= b -> b <= jslength text ->
  slice (before ++ text) (jslength before + a) (jslength before + b) = slice text a b.
Proof.
  intros Hab Hb. unfold jslength in *.
  rewrite !slice_firstn_skipn by (unfold jslength; rewrite ?length_app; lia).
  rewrite skipn_app.
  replace (Z.to_nat (Z.of_nat (length before) + a) - length before)%nat
    with (Z.to_nat a) by lia.
  rewrite skipn_all2 by lia. cbn [app]. f_equal. lia.
Qed.

(** Once a span is found, text appended after it changes nothing. *)
Lemma extractJsonText_app (text more span : jsstring) :
  extractJsonText text = Some span -> extractJsonText (text ++ more) = Some span.
Proof.
  rewrite !extractJsonText_eq. pose proof (findJsonStartIndex_spec text) as Hs.
  destruct (findJsonStartIndex text) as [start|]; [|discriminate].
  destruct Hs as [Hr Hf].
  rewrite (findJsonStartIndex_first _ _ (firstOpenerAt_app text more start Hf)).
  destruct (firstClose scanStart (skipn (Z.to_nat start) text)) as [p|] eqn:Hp; [|discriminate].
  cbn [option_map]. intros [= <-].
  destruct (firstClose_bound _ _ _ Hp) as [Hlt _]. rewrite length_skipn in Hlt.
  unfold jslength in Hr.
  rewrite skipn_app. replace (Z.to_nat start - length text)%nat with 0%nat by lia.
  cbn [skipn]. rewrite (firstClose_app _ more _ _ Hp). cbn [option_map].
  f_equal. apply slice_app_l; unfold jslength; lia.
Qed.

(** Text without braces or brackets before the rest is skipped. *)
Lemma extractJsonText_after (before text : jsstring) :
  noOpener before -> extractJsonText (before ++ text) = extractJsonText text.
Proof.
  intros Hno. rewrite !extractJsonText_eq. pose proof (findJsonStartIndex_spec text) as Hs.
  destruct (findJsonStartIndex text) as [start|].
  - destruct Hs as [Hr Hf].
    rewrite (findJsonStartIndex_first _ _ (firstOpenerAt_after before text start Hno Hf)).
    unfold jslength in *.
    rewrite skipn_app.
    replace (Z.to_nat (Z.of_nat (length before) + start) - length before)%nat
      with (Z.to_nat start) by lia.
    rewrite skipn_all2 by lia. cbn [app].
    destruct (firstClose scanStart (skipn (Z.to_nat start) text)) as [p|] eqn:Hp;
      [|reflexivity].
    cbn [option_map]. f_equal.
    destruct (firstClose_bound _ _ _ Hp) as [Hlt _]. rewrite length_skipn in Hlt.
    replace (Z.of_nat (length before) + start + Z.of_nat p + 1)
      with (jslength before + (start + Z.of_nat p + 1)) by (unfold jslength; lia).
    apply (slice_app_r before text); unfold jslength; lia.
  - rewrite findJsonStartIndex_noOpener; [reflexivity|].
    intros ch Hin. apply in_app_or in Hin. destruct Hin; auto.
Qed.

(** X1. Once [extractAndParseJson] has found a span in a text, decodable or
    not, whatever is appended to the text leaves its result unchanged. *)
Theorem extractAndParseJson_append_stable `{JsonDecoder} (text more : jsstring) :
  (forall jsonText value,
     extractAndParseJson text = ExtractOk jsonText value ->
     extractAndParseJson (text ++ more) = ExtractOk jsonText value) /\
  (forall message jsonText,
     extractAndParseJson text = ExtractFail invalid_json message jsonText ->
     extractAndParseJson (text ++ more) = ExtractFail invalid_json message jsonText).
Proof.
  assert (Hspan : forall r, extractAndParseJson text = r ->
            extractJsonText text <> None -> extractAndParseJson (text ++ more) = r).
  { intros r Hr Hsome. unfold extractAndParseJson in *.
    destruct (extractJsonText text) as [span|] eqn:Hs; [|congruence].
    now rewrite (extractJsonText_app text more span Hs). }
  split.
  - intros jsonText value Hr. apply Hspan; [exact Hr|].
    unfold extractAndParseJson in Hr. now destruct (extractJsonText text).
  - intros message jsonText Hr. apply Hspan; [exact Hr|].
    unfold extractAndParseJson in Hr. now destruct (extractJsonText text).
Qed.

(** X2. Text without a brace or bracket in front of a text does not change
    what [extractAndParseJson] returns for it. *)
Theorem extractAndParseJson_skips_prose `{JsonDecoder} (before text : jsstring) :
  noOpener before ->
  extractAndParseJson (before ++ text) = extractAndParseJson text.
Proof.
  intros Hno. unfold extractAndParseJson. now rewrite (extractJsonText_after before text Hno).
Qed.

Lemma extractAndParseJson_skips_prose_witness :
  noOpener (lit "Sure, here it is: ") /\
  @extractAndParseJson Reference.decoder (lit "Sure, here it is: " ++ litq "{'a': 1} ok")
  = @extractAndParseJson Reference.decoder (litq "{'a': 1} ok").
Proof.
  assert (Hno : noOpener (lit "Sure, here it is: ")).
  { intros ch Hin. cbn in Hin.
    repeat (destruct Hin as [<- | Hin]; [reflexivity|]). destruct Hin. }
  split; [exact Hno|].
  exact (@extractAndParseJson_skips_prose Reference.decoder _ (litq "{'a': 1} ok") Hno).
Defined.

(** X3. A span returned by [extractJsonText] is a piece of the text: nothing
    before it is a brace or bracket opener, it starts with an opener and
    ends with a closer, and extracting from the span alone gives the span
    back. *)
Theorem extractJsonText_span_shape (text span : jsstring) :
  extractJsonText text = Some span ->
  exists before after opener body closer,
    text = before ++ span ++ after /\
    noOpener before /\
    span = opener :: body ++ [closer] /\
    isOpener opener = true /\
    isCloser closer = true /\
    extractJsonText span = Some span.
Proof.
  intros Hs. rewrite extractJsonText_eq in Hs.
  pose proof (findJsonStartIndex_spec text) as Hspec.
  destruct (findJsonStartIndex text) as [start|]; [|discriminate].
  destruct Hspec as [Hr Hf].
  destruct (scanned_after_opener text start Hf) as (o & rest1 & Hskip & Ho & Hlen & _).
  rewrite Hskip in Hs.
  destruct (firstClose scanStart (o :: rest1)) as [p|] eqn:Hp; [|discriminate].
  cbn [option_map] in Hs. injection Hs as Hs.
  destruct (firstClose_bound _ _ _ Hp) as [Hlt (c & Hc & Hclose)].
  assert (Hspan : span = firstn (Datatypes.S p) (o :: rest1)).
  { rewrite <- Hs, slice_firstn_skipn by (cbn [length] in Hlt; lia).
    rewrite Hskip. f_equal. lia. }
  destruct p as [|p].
  { cbn in Hc. injection Hc as <-. rewrite (isOpener_not_closer _ Ho) in Hclose. discriminate. }
  cbn [nth_error] in Hc.
  exists (firstn (Z.to_nat start) text), (skipn (Datatypes.S (Datatypes.S p)) (o :: rest1)),
         o, (firstn p rest1), c.
  split; [|split; [|split; [|split; [|split]]]].
  - rewrite Hspan, firstn_skipn, <- Hskip. now rewrite firstn_skipn.
  - intros ch Hin. apply In_nth_error in Hin. destruct Hin as [j Hj].
    assert (Hjlt : (j < length (firstn (Z.to_nat start) text))%nat)
      by (apply nth_error_Some; congruence).
    rewrite length_firstn in Hjlt.
    rewrite nth_error_firstn in Hj. destruct (Nat.ltb j (Z.to_nat start)) eqn:Hjs.
    + destruct Hf as [_ Hmin]. apply (Hmin (Z.of_nat j) ch); [lia|].
      rewrite charAt_nth by lia. now rewrite Nat2Z.id.
    + apply Nat.ltb_ge in Hjs. lia.
  - rewrite Hspan. cbn [firstn]. f_equal. now apply firstn_succ_snoc.
  - exact Ho.
  - exact Hclose.
  - rewrite extractJsonText_eq.
    assert (Hfirst : firstOpenerAt span 0).
    { rewrite Hspan. split.
      - exists o. now split.
      - intros j ch Hj. lia. }
    rewrite (findJsonStartIndex_first _ _ Hfirst). cbn [Z.to_nat skipn].
    rewrite Hspan at 1. rewrite (firstClose_firstn _ _ _ Hp). cbn [option_map]. f_equal.
    assert (Hl : length span = Datatypes.S (Datatypes.S p)).
    { rewrite Hspan, length_firstn. cbn [length] in *. lia. }
    rewrite slice_firstn_skipn by (unfold jslength; lia).
    cbn [Z.to_nat skipn]. apply firstn_all2. lia.
Qed.

Lemma extractJsonText_span_shape_witness :
  extractJsonText (litq "Hello! {'a': 1, 'b': [2,3]} Thanks")
  = Some (litq "{'a': 1, 'b': [2,3]}") /\
  exists before after opener body closer,
    litq "Hello! {'a': 1, 'b': [2,3]} Thanks"
    = before ++ litq "{'a': 1, 'b': [2,3]}" ++ after /\
    noOpener before /\
    litq "{'a': 1, 'b': [2,3]}" = opener :: body ++ [closer] /\
    isOpener opener = true /\
    isCloser closer = true /\
    extractJsonText (litq "{'a': 1, 'b': [2,3]}") = Some (litq "{'a': 1, 'b': [2,3]}").
Proof.
  split; [reflexivity|].
  exact (extractJsonText_span_shape (litq "Hello! {'a': 1, 'b': [2,3]} Thanks")
           (litq "{'a': 1, 'b': [2,3]}") eq_refl).
Defined.

(** ** Issue formatting *)

Lemma join_app (sep : jsstring) (a b : list jsstring) :
  a <> [] -> b <> [] -> join sep (a ++ b) = join sep a ++ sep ++ join sep b.
Proof.
  intros Ha Hb. induction a as [|x a IH]; [congruence|].
  destruct a as [|y a].
  - cbn [app join]. destruct b; [congruence|reflexivity].
  - change (join sep ((x :: y :: a) ++ b)) with (x ++ sep ++ join sep ((y :: a) ++ b)).
    rewrite IH by discriminate.
    change (join sep (x :: y :: a)) with (x ++ sep ++ join sep (y :: a)).
    now rewrite <- !app_assoc.
Qed.

(** X4. [formatZodIssues] renders issues one after the other in the order
    given: the text for two non-empty lists of issues put together is the
    text of the first, a line break, and the text of the second. *)
Theorem formatZodIssues_app (first second : list ZodIssue) :
  first <> [] -> second <> [] ->
  formatZodIssues (first ++ second)
  = formatZodIssues first +++ LF +++ formatZodIssues second.
Proof.
  intros Hf Hs. unfold formatZodIssues. rewrite map_app.
  apply join_app; now destruct first, second.
Qed.

Lemma formatZodIssues_app_witness :
  let missing := {| issue_path := [PKey (lit "user"); PKey (lit "name")];
                    issue_message := lit "Required" |} in
  let wrong := {| issue_path := [PKey (lit "tags"); PIndex 0];
                  issue_message := lit "Expected string" |} in
  let whole := {| issue_path := []; issue_message := lit "Too many keys" |} in
  [missing] <> [] /\ [wrong; whole] <> [] /\
  formatZodIssues ([missing] ++ [wrong; whole])
  = lit "- user.name: Required" +++ LF
    +++ lit "- tags.0: Expected string" +++ LF +++ lit "- <root>: Too many keys".
Proof.
  cbv zeta. split; [discriminate|]. split; [discriminate|].
  rewrite formatZodIssues_app by discriminate. reflexivity.
Defined.

(** ** The stream validator over time *)

Section StreamOverTime.

Context `{schema : ZodSchema}.

Lemma extractAndParseJson_app (text more span : jsstring) :
  extractJsonText text = Some span ->
  extractAndParseJson (text ++ more) = extractAndParseJson text.
Proof.
  intros Hs. unfold extractAndParseJson.
  now rewrite (extractJsonText_app text more span Hs), Hs.
Qed.

Lemma push_buffer_field (buf chunk : jsstring) :
  resultBuffer (fst (push buf chunk)) = buf +++ chunk.
Proof.
  unfold push. destruct (extractAndParseJson (buf +++ chunk)) as [t v|[] msg t]; auto.
  now destruct (safeParse v).
Qed.

(** A verdict other than [NoJsonYet] survives appended text. *)
Lemma push_final_step (content more : jsstring) :
  isNoJsonYet (fst (push [] content)) = false ->
  fst (push [] (content +++ more)) = withBuffer (fst (push [] content)) (content +++ more).
Proof.
  unfold push. cbn [app]. intros Hr.
  destruct (extractJsonText content) as [span|] eqn:Hs.
  - rewrite (extractAndParseJson_app content more span Hs).
    destruct (extractAndParseJson content) as [t v|[] msg t]; auto.
    now destruct (safeParse v).
  - unfold extractAndParseJson in Hr. rewrite Hs in Hr. discriminate.
Qed.

Lemma withBuffer_withBuffer (r : StreamValidationResult) (a b : jsstring) :
  withBuffer (withBuffer r a) b = withBuffer r b.
Proof. now destruct r. Qed.

Lemma isNoJsonYet_withBuffer (r : StreamValidationResult) (b : jsstring) :
  isNoJsonYet (withBuffer r b) = isNoJsonYet r.
Proof. now destruct r. Qed.

Lemma later_pushes_keep_verdict (later : list jsstring) :
  forall content,
    isNoJsonYet (fst (push [] content)) = false ->
    forall i r,
      nth_error (fst (callAll content (map Push later))) i = Some r ->
      r = PushReturned
            (withBuffer (fst (push [] content))
                        (content +++ concat (firstn (Datatypes.S i) later))).
Proof.
  induction later as [|c later IH]; intros content Hfinal i r Hnth.
  - destruct i; discriminate.
  - cbn [map callAll] in Hnth.
    rewrite (surjective_pairing (push content c)), push_buffer in Hnth.
    rewrite (surjective_pairing (callAll _ (map Push later))) in Hnth.
    cbn [fst] in Hnth. rewrite push_from_empty in Hnth.
    pose proof (push_final_step content c Hfinal) as Hstep.
    destruct i as [|i]; cbn [nth_error] in Hnth.
    + injection Hnth as <-. rewrite Hstep. cbn [firstn concat]. now rewrite app_nil_r.
    + assert (Hfinal' : isNoJsonYet (fst (push [] (content +++ c))) = false)
        by now rewrite Hstep, isNoJsonYet_withBuffer.
      rewrite (IH (content +++ c) Hfinal' i r Hnth), Hstep, withBuffer_withBuffer.
      cbn [firstn concat]. now rewrite <- !app_assoc.
Qed.

(** X5. Once a push has returned a verdict other than [NoJsonYet], every
    later push (without a reset in between) returns the same verdict, the
    same message, issues, data and span, only with the grown buffer. *)
Theorem push_verdict_is_final (buf chunk : jsstring) (later : list jsstring) :
  isNoJsonYet (fst (push buf chunk)) = false ->
  forall i r,
    nth_error (fst (callAll (snd (push buf chunk)) (map Push later))) i = Some r ->
    r = PushReturned
          (withBuffer (fst (push buf chunk))
                      (buf +++ chunk +++ concat (firstn (Datatypes.S i) later))).
Proof.
  rewrite push_buffer, push_from_empty. intros Hfinal i r Hnth.
  rewrite (later_pushes_keep_verdict later (buf +++ chunk) Hfinal i r Hnth).
  now rewrite <- app_assoc.
Qed.

(** X6. The buffer of a validator is the concatenation of the chunks pushed
    since it was created or last reset: [buffer] returns it, every push
    result carries it, and it is empty right after [reset]. *)
Theorem buffer_is_chunks_since_reset (calls : list Call) :
  snd (createJsonStreamValidator calls) = concat (chunksSinceReset calls) /\
  fst (createJsonStreamValidator (calls ++ [Buffer]))
  = fst (createJsonStreamValidator calls)
    ++ [BufferReturned (concat (chunksSinceReset calls))] /\
  (forall chunk,
     exists r,
       fst (createJsonStreamValidator (calls ++ [Push chunk]))
       = fst (createJsonStreamValidator calls) ++ [PushReturned r] /\
       resultBuffer r = concat (chunksSinceReset calls) +++ chunk) /\
  snd (createJsonStreamValidator (calls ++ [Reset])) = [].
Proof.
  assert (Hbuf : snd (createJsonStreamValidator calls) = concat (chunksSinceReset calls)).
  { unfold createJsonStreamValidator. rewrite callAll_buffer.
    now destruct (existsb isReset calls). }
  unfold createJsonStreamValidator in *.
  split; [exact Hbuf|]. split; [|split].
  - rewrite callAll_app. cbn [fst callAll buffer]. now rewrite Hbuf.
  - intros chunk. exists (fst (push (concat (chunksSinceReset calls)) chunk)). split.
    + rewrite callAll_app. cbn [fst callAll]. rewrite Hbuf.
      now rewrite (surjective_pairing (push _ chunk)).
    + apply push_buffer_field.
  - rewrite callAll_app. reflexivity.
Qed.

Lemma validateJsonStream_from (chunks : list jsstring) :
  forall buf,
    fst (callAll buf (map Push chunks))
    = map (fun i => PushReturned
                      (fst (push [] (buf +++ concat (firstn (Datatypes.S i) chunks)))))
          (seq 0 (length chunks)).
Proof.
  induction chunks as [|c chunks IH]; intros buf; [reflexivity|].
  cbn [map callAll length seq].
  rewrite (surjective_pairing (push buf c)), push_buffer.
  rewrite (surjective_pairing (callAll _ (map Push chunks))). cbn [fst].
  rewrite IH, <- seq_shift, map_map. f_equal.
  - cbn [firstn concat]. now rewrite app_nil_r, push_from_empty.
  - apply map_ext. intros i. cbn [firstn concat]. now rewrite <- app_assoc.
Qed.

(** X7. [validateJsonStream] yields one result per chunk, in order; the
    result for chunk [i] is the verdict on the concatenation of the chunks up
    to and including it. *)
Theorem validateJsonStream_results (chunks : list jsstring) :
  validateJsonStream chunks
  = map (fun i => PushReturned (fst (push [] (concat (firstn (Datatypes.S i) chunks)))))
        (seq 0 (length chunks)) /\
  length (validateJsonStream chunks) = length chunks.
Proof.
  unfold validateJsonStream, createJsonStreamValidator.
  rewrite validateJsonStream_from. split; [reflexivity|].
  now rewrite length_map, length_seq.
Qed.

End StreamOverTime.

(** The integration test: valid once the object closes, and still valid,
    with the same data, after the trailing text. *)
Lemma push_verdict_is_final_witness :
  isNoJsonYet (fst (@push Reference.decoder Reference.objectA
                      (litq "hello {'a':") (lit " 1}"))) = false /\
  forall r,
    nth_error (fst (@callAll Reference.decoder Reference.objectA
                      (snd (push (litq "hello {'a':") (lit " 1}")))
                      (map Push [lit " bye"; lit "!"]))) 1 = Some r ->
    r = PushReturned
          (@Valid Reference.decoder Reference.objectA (litq "hello {'a': 1} bye!")
             (Reference.JObject [(lit "a", Reference.JNumber (lit "1"))])
             (litq "{'a': 1}")).
Proof.
  split; [reflexivity|]. intros r Hnth.
  rewrite (@push_verdict_is_final Reference.decoder Reference.objectA
             (litq "hello {'a':") (lit " 1}") [lit " bye"; lit "!"] eq_refl 1 r Hnth).
  reflexivity.
Defined.

(** ** The tunnel, whatever the runner does *)

Section TunnelEveryRun.

Context `{schema : ZodSchema}.
Variable options : TunnelOptions.
Variables S E : Type.
Variable runner : TunnelRunner S E.

Local Abbreviation body := (attemptBody options runner).
Local Abbreviation reached := (stateAt options runner).
Local Abbreviation calls_at := (callsAt options runner).
Local Abbreviation ending_at := (endingAt options runner).
Local Abbreviation logged := (afterInvocation options runner).
Local Abbreviation m := (maxRetriesOf options).

Lemma extractAndParseJson_ok_inv (text jsonText : jsstring) (value : JsValue) :
  extractAndParseJson text = ExtractOk jsonText value ->
  extractJsonText text = Some jsonText /\ JSON_parse jsonText = inl value.
Proof.
  unfold extractAndParseJson. destruct (extractJsonText text) as [span|]; [|discriminate].
  destruct (isEmpty span); [discriminate|].
  destruct (JSON_parse span) as [v|msg] eqn:Hp; [|discriminate].
  now intros [= <- <-].
Qed.

(** How an iteration can settle the run. *)
Lemma body_Settle (st st' : RunState S E) (outcome : RunOutcome E) :
  body st = Settle outcome st' ->
  st' = logged st /\
  ((exists err, ending_at st = Rejected err /\ outcome = RunnerError err) \/
   (ending_at st = HelperTypeError /\ outcome = TypeError) \/
   (exists raw jsonText value validated,
      ending_at st = Resolved raw /\
      extractJsonText raw = Some jsonText /\
      JSON_parse jsonText = inl value /\
      safeParse value = inl validated /\
      outcome = Fulfilled validated)).
Proof.
  rewrite attemptBody_eq. destruct (ending_at st) as [raw|err|] eqn:He.
  - destruct (failureFromRaw raw) as [failure|] eqn:Hf; [discriminate|].
    destruct (failureFromRaw_None raw Hf) as (t & v & d & Hx & Hs).
    rewrite Hx. unfold parse. rewrite Hs. intros [= <- <-]. split; [reflexivity|].
    right. right. destruct (extractAndParseJson_ok_inv raw t v Hx) as [Ht Hv].
    now exists raw, t, v, d.
  - intros [= <- <-]. split; [reflexivity|]. left. now exists err.
  - intros [= <- <-]. split; [reflexivity|]. right. now left.
Qed.

(** Where the loop stops: after [fuel] failed attempts, or at the first
    attempt that settles the run. *)
Lemma runLoop_stops (fuel : nat) :
  forall st,
    exists j stj,
      reached j st = Some stj /\
      ((j = fuel /\
        runLoop options runner fuel st
        = (TunnelMaxRetriesError (maxRetriesMessage options) (st_failures stj), stj)) \/
       ((j < fuel)%nat /\
        exists outcome,
          body stj = Settle outcome (logged stj) /\
          runLoop options runner fuel st = (outcome, logged stj))).
Proof.
  induction fuel as [|fuel IH]; intros st.
  - exists 0%nat, st. split; [reflexivity|]. now left.
  - cbn [runLoop]. destruct (body st) as [st1|outcome st1] eqn:Hb.
    + destruct (IH st1) as (j & stj & Hr & Hcase).
      exists (Datatypes.S j), stj. split; [cbn [stateAt]; now rewrite Hb|].
      destruct Hcase as [[-> Hrun] | (Hlt & outcome & Hs & Hrun)].
      * left. now split.
      * right. split; [lia|]. now exists outcome.
    + destruct (body_Settle st st1 outcome Hb) as [-> _].
      exists 0%nat, st. split; [reflexivity|]. right. split; [lia|]. now exists outcome.
Qed.

Lemma reached_failures_length (s0 : S) (k : nat) (st : RunState S E) :
  reached k (initialState s0) = Some st ->
  length (st_failures st) = k /\ length (st_log st) = k.
Proof.
  intros Hr. destruct (reached_invariant options S E runner s0 k st Hr) as [_ Hl Hf _ _ _].
  split; [|exact Hl]. rewrite <- (length_map Some), Hf, length_map. exact Hl.
Qed.

(** X8. Whatever the runner does, [run] invokes it at most [maxRetries + 1]
    times (three times with the default), never at all when [maxRetries] is
    negative. A run that ends with [TunnelMaxRetriesError] made exactly
    [maxRetries + 1] invocations and carries one failure for each; a run
    that ends otherwise recorded a failure for every invocation but the
    last. *)
Theorem run_invocations_bounded (s0 : S) :
  (length (st_log (snd (run options runner s0))) <= Z.to_nat (m + 1))%nat /\
  (maxRetries options = None ->
   (length (st_log (snd (run options runner s0))) <= 3)%nat) /\
  (m < 0 ->
   run options runner s0
   = (TunnelMaxRetriesError
        (lit "Failed to produce valid output after " +++ numToString (m + 1)
         +++ lit " attempts.") [], initialState s0)) /\
  match fst (run options runner s0) with
  | TunnelMaxRetriesError _ failures =>
    failures = st_failures (snd (run options runner s0)) /\
    length failures = Z.to_nat (m + 1) /\
    length (st_log (snd (run options runner s0))) = Z.to_nat (m + 1)
  | _ =>
    Datatypes.S (length (st_failures (snd (run options runner s0))))
    = length (st_log (snd (run options runner s0)))
  end.
Proof.
  assert (Hmain :
    (length (st_log (snd (run options runner s0))) <= Z.to_nat (m + 1))%nat /\
    match fst (run options runner s0) with
    | TunnelMaxRetriesError _ failures =>
      failures = st_failures (snd (run options runner s0)) /\
      length failures = Z.to_nat (m + 1) /\
      length (st_log (snd (run options runner s0))) = Z.to_nat (m + 1)
    | _ =>
      Datatypes.S (length (st_failures (snd (run options runner s0))))
      = length (st_log (snd (run options runner s0)))
    end).
  { unfold run.
    destruct (runLoop_stops (Z.to_nat (m + 1)) (initialState s0))
      as (j & stj & Hr & [[Hj Hrun] | (Hlt & outcome & Hs & Hrun)]);
      rewrite Hrun; cbn [fst snd];
      destruct (reached_failures_length s0 j stj Hr) as [Hf Hl].
    - split; [lia|]. repeat split; lia.
    - assert (Hlog : length (st_log (logged stj)) = Datatypes.S j)
        by (cbn [afterInvocation st_log]; rewrite length_app; simpl; lia).
      split; [lia|].
      destruct (body_Settle _ _ _ Hs)
        as [_ [(err & _ & ->) | [[_ ->] | (r & t & v & d & _ & _ & _ & _ & ->)]]];
        cbn [afterInvocation st_failures]; lia. }
  destruct Hmain as [Hbound Hkind].
  split; [exact Hbound|]. split; [|split; [|exact Hkind]].
  - intros Hnone. unfold maxRetriesOf in Hbound. rewrite Hnone in Hbound. exact Hbound.
  - intros Hneg. unfold run. replace (Z.to_nat (m + 1)) with 0%nat by lia. reflexivity.
Qed.

(** X9. [run] never ends in the [TypeError] of a null [lastFailure], nor in
    a [ZodError] thrown by the second validation: it fulfils, rejects with
    the runner's error, or rejects with [TunnelMaxRetriesError]. *)
Theorem run_outcomes (s0 : S) :
  (exists validated, fst (run options runner s0) = Fulfilled validated) \/
  (exists err, fst (run options runner s0) = RunnerError err) \/
  (exists failures,
     fst (run options runner s0)
     = TunnelMaxRetriesError
         (lit "Failed to produce valid output after " +++ numToString (m + 1)
          +++ lit " attempts.") failures).
Proof.
  unfold run.
  destruct (runLoop_stops (Z.to_nat (m + 1)) (initialState s0))
    as (j & stj & Hr & [[Hj Hrun] | (Hlt & outcome & Hs & Hrun)]); rewrite Hrun; cbn [fst].
  - right. right. now exists (st_failures stj).
  - destruct (body_Settle _ _ _ Hs)
      as [_ [(err & _ & ->) | [[He _] | (r & t & v & d & _ & _ & _ & _ & ->)]]].
    + right. left. now exists err.
    + now destruct (reached_no_TypeError options S E runner s0 j stj Hr).
    + left. now exists d.
Qed.

(** X10. A value with which [run] fulfils is always the schema's output
    for the decoded span of the raw text the runner returned on the last
    attempt made. *)
Theorem run_fulfils_with_validated_span (s0 : S) (validated : Output) :
  fst (run options runner s0) = Fulfilled validated ->
  exists last raw jsonText value,
    nth_error (st_log (snd (run options runner s0)))
              (length (st_log (snd (run options runner s0))) - 1) = Some last /\
    log_end last = Resolved raw /\
    extractJsonText raw = Some jsonText /\
    JSON_parse jsonText = inl value /\
    safeParse value = inl validated.
Proof.
  unfold run.
  destruct (runLoop_stops (Z.to_nat (m + 1)) (initialState s0))
    as (j & stj & Hr & [[Hj Hrun] | (Hlt & outcome & Hs & Hrun)]); rewrite Hrun; cbn [fst snd].
  - discriminate.
  - intros ->.
    destruct (body_Settle _ _ _ Hs)
      as [_ [(err & _ & Ho) | [[_ Ho] | (r & t & v & d & He & Ht & Hv & Hd & Ho)]]];
      try discriminate.
    injection Ho as <-.
    eexists. exists r, t, v. split; [|split; [|split; [|split]]]; eauto.
    + cbn [afterInvocation st_log]. rewrite length_app. cbn [length].
      rewrite nth_error_app2 by lia.
      replace (length (st_log stj) + 1 - 1 - length (st_log stj))%nat with 0%nat by lia.
      reflexivity.
    + exact He.
Qed.

(** X11. The context handed to the runner on attempt [k] holds [k], the
    configured [maxRetries] and the last failure: none on attempt 0, and
    afterwards the failure derived from the raw output of attempt [k - 1],
    which is also the last of the failures recorded so far. *)
Theorem attempt_context (s0 : S) (k : nat) (st : RunState S E) :
  reached k (initialState s0) = Some st ->
  exists entry,
    nth_error (st_log (logged st)) k = Some entry /\
    log_calls entry = calls_at st /\
    ctx_attempt (log_context entry) = Z.of_nat k /\
    ctx_maxRetries (log_context entry) = m /\
    (k = 0%nat -> ctx_lastFailure (log_context entry) = None) /\
    ((0 < k)%nat ->
     exists previous raw failure,
       nth_error (st_log (logged st)) (k - 1) = Some previous /\
       log_end previous = Resolved raw /\
       failureFromRaw raw = Some failure /\
       ctx_lastFailure (log_context entry) = Some failure /\
       exists earlier, st_failures st = earlier ++ [failure]).
Proof.
  intros Hr. destruct (reached_invariant options S E runner s0 k st Hr) as [Ha Hl Hf Hlf _ _].
  destruct (reached_failures_length s0 k st Hr) as [Hfl _].
  eexists. split; [|split; [|split; [|split; [|split]]]].
  - cbn [afterInvocation st_log]. rewrite nth_error_app2 by lia.
    replace (k - length (st_log st))%nat with 0%nat by lia. reflexivity.
  - reflexivity.
  - exact Ha.
  - reflexivity.
  - intros ->. cbn [log_context ctx_lastFailure]. rewrite Hlf.
    destruct (st_failures st); [reflexivity|discriminate].
  - intros Hk.
    assert (Hne : st_failures st <> [])
      by (intros Hnil; rewrite Hnil in Hfl; simpl in Hfl; lia).
    destruct (exists_last Hne) as (fs & f & Hfs).
    assert (Hsome : st_lastFailure st = Some f)
      by (rewrite Hlf, Hfs, map_app; cbn [map]; now rewrite last_last).
    destruct (lastFailure_previous options S E runner s0 k st f Hr Hsome)
      as (previous & raw & Hn & He & Hfail & _).
    exists previous, raw, f. cbn [log_context ctx_lastFailure].
    split; [|split; [|split; [|split]]]; auto.
    + cbn [afterInvocation st_log]. rewrite nth_error_app1 by lia. exact Hn.
    + now exists fs.
Qed.

(** *** Prompts of every attempt *)

Lemma buildBasePrompt_trim (userPrompt : jsstring) :
  buildBasePrompt options (trim userPrompt) = buildBasePrompt options userPrompt.
Proof. unfold buildBasePrompt. now rewrite trim_idem. Qed.

(** A prompt returned by the closure of attempt 0, at any time. *)
Lemma base_prompt (s0 : S) (k : nat) (st : RunState S E)
    (pre : list InjectCall) (c : InjectCall) (post : list InjectCall) :
  reached k (initialState s0) = Some st ->
  calls_at st = pre ++ c :: post ->
  capturedAttempt (call_helper c) (Z.of_nat k) = 0 ->
  call_prompt c = buildBasePrompt options (call_userPrompt c).
Proof.
  intros Hr Hcalls Hcap.
  destruct (reached_invariant options S E runner s0 k st Hr) as [Ha _ _ _ _ _].
  unfold callsAt, invocationAt in Hcalls.
  pose proof (invokeRunner_prompts options S E _ _ _ _ _ pre c post Hcalls) as Hp.
  rewrite injectSchema_prompt, Ha, Hcap in Hp. cbn [Z.eqb] in Hp.
  injection Hp as <-. apply buildBasePrompt_trim.
Qed.

(** X12. A prompt returned by the [injectSchema] of attempt 0 (every call
    of attempt 0, and any later call of that closure) is the base prompt: the
    trimmed system prompt when one is configured and not blank, the strict
    rules, and the trimmed user text unless it is empty, joined by blank
    lines. It depends on nothing else: neither on earlier calls nor on
    failures. *)
Theorem first_attempt_prompt (s0 : S) (k : nat) (st : RunState S E)
    (pre : list InjectCall) (c : InjectCall) (post : list InjectCall) :
  reached k (initialState s0) = Some st ->
  calls_at st = pre ++ c :: post ->
  capturedAttempt (call_helper c) (Z.of_nat k) = 0 ->
  call_prompt c =
  join (LF +++ LF)
    ((match systemPrompt options with
      | Some s => if isEmpty (trim s) then [] else [trim s]
      | None => []
      end)
     ++ [STRICT_RULES options]
     ++ (if isEmpty (trim (call_userPrompt c)) then [] else [trim (call_userPrompt c)])).
Proof.
  intros Hr Hcalls Hcap. now rewrite (base_prompt s0 k st pre c post Hr Hcalls Hcap).
Qed.

Lemma startsWith_app (s prefix rest : jsstring) :
  startsWith s prefix = true -> startsWith (s ++ rest) prefix = true.
Proof.
  revert s. induction prefix as [|p prefix IH]; intros [|c s]; cbn [startsWith app];
    auto; try discriminate.
  - now destruct rest.
  - rewrite !andb_true_iff. intros [Hc Hs]. split; auto.
Qed.

Lemma startsWith_refl (s : jsstring) : startsWith s s = true.
Proof.
  induction s as [|c s IH]; [reflexivity|]. cbn. now rewrite N.eqb_refl.
Qed.

Lemma includes_app_l (s rest needle : jsstring) :
  includes s needle = true -> includes (s ++ rest) needle = true.
Proof.
  induction s as [|c s IH]; cbn [includes app].
  - rewrite orb_false_r. intros Hs. destruct needle; [|discriminate].
    now destruct rest.
  - rewrite !orb_true_iff. intros [Hs | Hs].
    + left. now apply (startsWith_app (c :: s)).
    + right. now apply IH.
Qed.

Lemma includes_app_r (before s needle : jsstring) :
  includes s needle = true -> includes (before ++ s) needle = true.
Proof.
  intros Hs. induction before as [|c before IH]; [exact Hs|].
  cbn [app includes]. rewrite IH. apply orb_true_r.
Qed.

Lemma includes_refl (s : jsstring) : includes s s = true.
Proof.
  destruct s as [|c s]; [reflexivity|]. cbn [includes].
  now rewrite (startsWith_refl (c :: s)).
Qed.

Lemma includes_join (sep : jsstring) (parts : list jsstring) (part needle : jsstring) :
  In part parts -> includes part needle = true ->
  includes (join sep parts) needle = true.
Proof.
  intros Hin Hn. induction parts as [|p parts IH]; [destruct Hin|].
  destruct parts as [|q parts].
  - destruct Hin as [-> | []]. exact Hn.
  - change (join sep (p :: q :: parts)) with (p ++ sep ++ join sep (q :: parts)).
    destruct Hin as [-> | Hin].
    + now apply includes_app_l.
    + apply includes_app_r, includes_app_r. now apply IH.
Qed.

Lemma startsWith_join (sep : jsstring) (p : jsstring) (parts : list jsstring) :
  startsWith (join sep (p :: parts)) p = true.
Proof.
  destruct parts as [|q parts]; [apply startsWith_refl|].
  change (join sep (p :: q :: parts)) with (p ++ sep ++ join sep (q :: parts)).
  apply startsWith_app, startsWith_refl.
Qed.

Lemma STRICT_RULES_schema : includes (STRICT_RULES options) (schemaTs options) = true.
Proof.
  unfold STRICT_RULES. eapply includes_join.
  - right. right. right. left. reflexivity.
  - apply includes_app_r, includes_app_r, includes_app_l, includes_refl.
Qed.

(** X13. Every prompt [injectSchema] returns, on any attempt and through
    any helper, contains the strict rules and in them the rendered schema,
    and starts with the trimmed system prompt when one is configured and not
    blank. *)
Theorem every_prompt_carries_schema (s0 : S) (k : nat) (st : RunState S E)
    (c : InjectCall) :
  reached k (initialState s0) = Some st ->
  In c (calls_at st) ->
  includes (call_prompt c) (STRICT_RULES options) = true /\
  includes (call_prompt c) (schemaTs options) = true /\
  (forall s, systemPrompt options = Some s -> isEmpty (trim s) = false ->
     startsWith (call_prompt c) (trim s) = true).
Proof.
  intros Hr Hin. apply in_split in Hin. destruct Hin as (pre & post & Hcalls).
  assert (Hparts : exists before after,
            call_prompt c
            = join (LF +++ LF) (systemPromptParts options
                                ++ before ++ [STRICT_RULES options] ++ after)).
  { destruct (Z.eq_dec (capturedAttempt (call_helper c) (Z.of_nat k)) 0) as [Hcap | Hcap].
    - rewrite (base_prompt s0 k st pre c post Hr Hcalls Hcap).
      now exists [], (if isEmpty (trim (call_userPrompt c)) then []
                      else [trim (call_userPrompt c)]).
    - destruct (corrective_prompt options S E runner s0 k st pre c post Hr Hcalls Hcap)
        as (failure & _ & ->).
      unfold buildFixPrompt, fixPromptParts.
      exists [lit "Your previous response was invalid."; lit "Return ONLY corrected JSON."].
      eexists. cbn [app]. reflexivity. }
  destruct Hparts as (before & after & ->).
  assert (Hrules : includes (join (LF +++ LF)
                     (systemPromptParts options ++ before ++ [STRICT_RULES options] ++ after))
                     (STRICT_RULES options) = true).
  { eapply includes_join; [|apply includes_refl].
    apply in_or_app. right. apply in_or_app. right. now left. }
  split; [exact Hrules|]. split.
  - eapply includes_join; [|apply STRICT_RULES_schema].
    apply in_or_app. right. apply in_or_app. right. now left.
  - intros s Hs Hne. unfold systemPromptParts. rewrite Hs, Hne. apply startsWith_join.
Qed.

(** *** Failure records and truncation *)

(** X14. The failure record of a raw output mirrors its extraction: no span
    gives [no_json] with the fixed message; a span that does not decode
    gives [invalid_json] with the decoder's message and the span; a decoded
    span the schema rejects gives [schema] with the fixed message, the span
    and the formatted issues; a decoded span the schema accepts gives no
    failure. Every record keeps the raw output unchanged. *)
Theorem failureFromRaw_kinds (raw : jsstring) :
  failureFromRaw raw =
  match extractJsonText raw with
  | None =>
    Some (FailNoJson (lit "No JSON object/array found in model output.") raw)
  | Some span =>
    match JSON_parse span with
    | inr message => Some (FailInvalidJson message raw (Some span))
    | inl value =>
      match safeParse value with
      | inl _ => None
      | inr issues =>
        Some (FailSchema (lit "Output JSON did not match the schema.") raw span
                         (formatZodIssues issues))
      end
    end
  end /\
  (forall failure, failureFromRaw raw = Some failure -> failure_raw failure = raw).
Proof.
  split; [|apply failureFromRaw_raw].
  unfold failureFromRaw. destruct (extractJsonText raw) as [span|] eqn:Hs.
  - rewrite (extractAndParseJson_of_span raw span Hs (extractJsonText_nonempty _ _ Hs)).
    now destruct (JSON_parse span).
  - unfold extractAndParseJson. now rewrite Hs.
Qed.


End TunnelEveryRun.

(** ** Concrete runs, continued *)

(** The locked-intent run fulfils with the object of its second answer. *)
Lemma run_fulfils_with_validated_span_witness :
  let options := withOptions (Some 2) None in
  fst (run options changesIntent tt)
  = Fulfilled (Reference.JObject [(lit "a", Reference.JNumber (lit "10"))]) /\
  exists last raw jsonText value,
    nth_error (st_log (snd (run options changesIntent tt)))
              (length (st_log (snd (run options changesIntent tt))) - 1) = Some last /\
    log_end last = Resolved raw /\
    extractJsonText raw = Some jsonText /\
    JSON_parse jsonText = inl value /\
    safeParse value = inl (Reference.JObject [(lit "a", Reference.JNumber (lit "10"))]).
Proof.
  cbv zeta. split; [vm_compute; reflexivity|].
  apply (@run_fulfils_with_validated_span Reference.decoder Reference.objectA
           (withOptions (Some 2) None) unit jsstring changesIntent tt).
  vm_compute. reflexivity.
Defined.

(** The context of attempt 1 after a schema mismatch on attempt 0. *)
Lemma attempt_context_witness :
  let options := withOptions (Some 2) None in
  exists st entry,
    stateAt options changesIntent 1 (initialState tt) = Some st /\
    nth_error (st_log (afterInvocation options changesIntent st)) 1 = Some entry /\
    ctx_attempt (log_context entry) = 1 /\
    ctx_maxRetries (log_context entry) = 2.
Proof.
  cbv zeta. second_attempt st Hr Hst.
  destruct (@attempt_context Reference.decoder Reference.objectA
              (withOptions (Some 2) None) unit jsstring changesIntent tt 1 st Hr)
    as (entry & Hn & _ & Ha & Hm & _).
  exists st, entry. split; [reflexivity|]. split; [exact Hn|]. split; [exact Ha|exact Hm].
Defined.

(** The helper kept from attempt 0 returns a base prompt on attempt 1. *)
Lemma first_attempt_prompt_witness :
  let options := withOptions (Some 1) None in
  exists st c post,
    stateAt options keepsFirstHelper 1 (initialState tt) = Some st /\
    callsAt options keepsFirstHelper st = [] ++ c :: post /\
    capturedAttempt (call_helper c) (Z.of_nat 1) = 0 /\
    call_prompt c = join (LF +++ LF) [STRICT_RULES options; lit "later text"].
Proof.
  cbv zeta. second_attempt st Hr Hst.
  destruct (callsAt (withOptions (Some 1) None) keepsFirstHelper st) as [|c post] eqn:Hc;
    [rewrite <- Hst in Hc; vm_compute in Hc; discriminate|].
  assert (Hh : call_helper c = FirstAttemptHelper /\ call_userPrompt c = lit "later text").
  { rewrite <- Hst in Hc. vm_compute in Hc. injection Hc as <- _. now split. }
  destruct Hh as [Hh Hu].
  assert (Hcap : capturedAttempt (call_helper c) (Z.of_nat 1) = 0) by now rewrite Hh.
  exists st, c, post. split; [reflexivity|]. split; [exact Hc|]. split; [exact Hcap|].
  rewrite (@first_attempt_prompt Reference.decoder Reference.objectA
             (withOptions (Some 1) None) unit jsstring keepsFirstHelper tt 1 st [] c post
             Hr Hc Hcap).
  rewrite Hu. reflexivity.
Defined.

(** The corrective prompt of the locked-intent run carries the schema. *)
Lemma every_prompt_carries_schema_witness :
  let options := withOptions (Some 2) None in
  exists st c,
    stateAt options changesIntent 1 (initialState tt) = Some st /\
    In c (callsAt options changesIntent st) /\
    includes (call_prompt c)
             (lit "export interface Output {" +++ LF +++ lit "  a: number;" +++ LF +++ lit "}")
    = true.
Proof.
  cbv zeta. second_attempt st Hr Hst.
  single_call (withOptions (Some 2) None) changesIntent st Hst c Hc Hh.
  assert (Hin : In c (callsAt (withOptions (Some 2) None) changesIntent st))
    by (rewrite Hc; now left).
  destruct (@every_prompt_carries_schema Reference.decoder Reference.objectA
              (withOptions (Some 2) None) unit jsstring changesIntent tt 1 st c Hr Hin)
    as (_ & Hschema & _).
  exists st, c. split; [reflexivity|]. split; [exact Hin|exact Hschema].
Defined.


(** ** The schema describer *)

Section Describer.

Import ZodToTs.

Context `{encoder : JsonEncoder}.

(** Induction on a schema, with the statement for every schema directly
    below its [_def]. *)
Lemma ZodTypeAny_nested_ind (P : ZodTypeAny -> Prop) :
  (forall description isOptionalMethod def,
     ForallDef P def -> P (Schema description isOptionalMethod def)) ->
  forall schema, P schema.
Proof.
  intros step. fix IH 1. intros [description isOptionalMethod def]. apply step.
  destruct def as [ | | | | | | | | | | value | values | values | t | items | options
                  | options | a b | t | t | t | t | keyType valueType | a b | shape | ];
    cbn [ForallDef]; auto.
  - induction items as [|x items IHitems]; constructor; auto.
  - induction options as [|x options IHoptions]; constructor; auto.
  - induction options as [|x options IHoptions]; constructor; auto.
  - destruct keyType as [k|]; split; auto.
  - induction shape as [|[key value] shape IHshape]; constructor; auto.
Qed.

(** X16. [unwrapOptionalDefault] strips every outer optional and default
    layer and nothing else: its result is neither a [ZodOptional] nor a
    [ZodDefault], unwrapping it again changes nothing, and a schema that is
    neither is returned as it is. *)
Theorem unwrapOptionalDefault_core (schema : ZodTypeAny) :
  (forall innerType, def_of (unwrapOptionalDefault schema) <> ZodOptional _ innerType) /\
  (forall innerType, def_of (unwrapOptionalDefault schema) <> ZodDefault _ innerType) /\
  unwrapOptionalDefault (unwrapOptionalDefault schema) = unwrapOptionalDefault schema /\
  ((forall innerType, def_of schema <> ZodOptional _ innerType) ->
   (forall innerType, def_of schema <> ZodDefault _ innerType) ->
   unwrapOptionalDefault schema = schema).
Proof.
  induction schema as [description isOptionalMethod def IH] using ZodTypeAny_nested_ind.
  destruct def; cbn [ForallDef] in IH; cbn [unwrapOptionalDefault def_of];
    try (repeat split; intros; try discriminate; reflexivity).
  - destruct IH as (Ho & Hd & Hi & _). repeat split; auto.
    intros Hno _. now destruct (Hno innerType).
  - destruct IH as (Ho & Hd & Hi & _). repeat split; auto.
    intros _ Hno. now destruct (Hno innerType).
Qed.

Lemma renderedKeys_unwrap (schema : ZodTypeAny) :
  renderedKeys (unwrapOptionalDefault schema) = renderedKeys schema.
Proof.
  induction schema as [description isOptionalMethod def IH] using ZodTypeAny_nested_ind.
  destruct def; cbn [ForallDef] in IH; try reflexivity; exact IH.
Qed.

Lemma includes_wrapIfUnion (t needle : jsstring) :
  includes t needle = true -> includes (wrapIfUnion t) needle = true.
Proof.
  intros Ht. unfold wrapIfUnion. destruct (includes t (lit " | ")); [|exact Ht].
  now apply includes_app_r, includes_app_l.
Qed.

Lemma includes_join_map {A : Type} (f : A -> jsstring) (sep needle : jsstring)
    (l : list A) (x : A) :
  In x l -> includes (f x) needle = true -> includes (join sep (map f l)) needle = true.
Proof.
  intros Hin Hx. apply (includes_join sep (map f l) (f x)); [|exact Hx]. now apply in_map.
Qed.

(** Every key of the shapes [renderType] descends into is in its text, for
    the schema and for its unwrapped form. *)
Lemma renderType_keys (schema : ZodTypeAny) :
  (forall depth key, In key (renderedKeys schema) ->
     includes (renderType schema depth) (safeKey key) = true) /\
  (forall depth key, In key (renderedKeys schema) ->
     includes (renderType (unwrapOptionalDefault schema) depth) (safeKey key) = true).
Proof.
  induction schema as [description isOptionalMethod def IH] using ZodTypeAny_nested_ind.
  assert (Hself : forall depth key,
            In key (renderedKeys (Schema description isOptionalMethod def)) ->
            includes (renderType (Schema description isOptionalMethod def) depth) (safeKey key)
            = true).
  { intros depth key.
    destruct def as [ | | | | | | | | | | value | values | values | t | items | options
                    | options | a b | t | t | t | t | keyType valueType | a b | shape | ];
      cbn [ForallDef] in IH; cbn [renderedKeys renderType]; try (intros []).
    - intros Hk. apply includes_app_l, includes_wrapIfUnion. now apply IH.
    - intros Hk. apply in_flat_map in Hk. destruct Hk as (x & Hx & Hk).
      apply includes_app_r, includes_app_l.
      apply (includes_join_map _ _ _ items x Hx).
      rewrite Forall_forall in IH. now apply (IH x Hx).
    - intros Hk. apply in_flat_map in Hk. destruct Hk as (x & Hx & Hk).
      apply (includes_join_map _ _ _ options x Hx).
      rewrite Forall_forall in IH. now apply (IH x Hx).
    - intros Hk. apply in_flat_map in Hk. destruct Hk as (x & Hx & Hk).
      apply (includes_join_map _ _ _ options x Hx).
      rewrite Forall_forall in IH. now apply (IH x Hx).
    - intros Hk. apply in_app_or in Hk. destruct IH as [IHa IHb]. destruct Hk as [Hk | Hk].
      + apply includes_app_l, includes_wrapIfUnion. now apply IHa.
      + apply includes_app_r, includes_app_r, includes_wrapIfUnion. now apply IHb.
    - intros Hk. apply includes_app_l. now apply IH.
    - intros Hk. apply includes_app_l. now apply IH.
    - intros Hk. now apply IH.
    - intros Hk. now apply IH.
    - intros Hk. apply in_app_or in Hk. destruct IH as [IHk IHv]. destruct Hk as [Hk | Hk].
      + destruct keyType as [k|]; [|destruct Hk].
        apply includes_app_r, includes_app_l. now apply IHk.
      + apply includes_app_r, includes_app_r, includes_app_r, includes_app_l. now apply IHv.
    - intros Hk. apply in_app_or in Hk. destruct IH as [IHa IHb]. destruct Hk as [Hk | Hk].
      + apply includes_app_r, includes_app_l. now apply IHa.
      + apply includes_app_r, includes_app_r, includes_app_r, includes_app_l. now apply IHb.
    - intros Hk. apply in_flat_map in Hk. destruct Hk as ([k v] & Hx & Hk).
      destruct shape as [|e shape]; [destruct Hx|].
      remember (e :: shape) as entries eqn:Hentries. 
      match goal with
      | |- includes (match map ?f entries with [] => _ | _ :: _ => _ end) _ = true =>
        assert (Hline : includes (join LF (map f entries)) (safeKey key) = true)
      end.
      { apply (includes_join_map _ _ _ entries (k, v) Hx). cbn [fst snd].
        rewrite Forall_forall in IH. cbn [fst snd] in Hk. destruct Hk as [<- | Hk].
        - apply includes_app_r, includes_app_l, includes_refl.
        - do 4 apply includes_app_r. apply includes_app_l.
          now apply (proj2 (IH (k, v) Hx)). }
      rewrite Hentries in *. cbn [map] in *.
      now apply includes_app_r, includes_app_r, includes_app_l. }
  split; [exact Hself|].
  intros depth key Hk.
  destruct def; cbn [ForallDef] in IH; try (now apply Hself);
    cbn [unwrapOptionalDefault]; cbn [renderedKeys] in Hk; now apply IH.
Qed.

(** X17. Every field name of every object shape that [renderType] descends
    into (through arrays, tuples, unions, intersections, optional, nullable,
    default and effects wrappers, records, maps and nested objects) appears,
    as [safeKey] writes it, in the rendered type and in the declaration
    [zodSchemaToTypeScript] returns. *)
Theorem every_field_name_is_rendered (schema : ZodTypeAny) (name : option jsstring)
    (depth : nat) (key : jsstring) :
  In key (renderedKeys schema) ->
  includes (renderType schema depth) (safeKey key) = true /\
  includes (zodSchemaToTypeScript schema name) (safeKey key) = true.
Proof.
  intros Hk. split; [now apply renderType_keys|].
  unfold zodSchemaToTypeScript. destruct (isObjectSchema schema).
  - do 3 apply includes_app_r. now apply renderType_keys.
  - do 3 apply includes_app_r. apply includes_app_l. now apply renderType_keys.
Qed.

End Describer.

(** The reference schema of the tunnel is described as the code renders
    [z.object({ a: z.number() })]. *)
Example objectA_description :
  ZodToTs.zodSchemaToTypeScript ReferenceEncoder.objectA_schema (Some (lit "Output"))
  = @Zod.zodSchemaToTypeScript Reference.decoder Reference.objectA (lit "Output").
Proof. reflexivity. Qed.

Example user_schema_description :
  ZodToTs.zodSchemaToTypeScript ReferenceEncoder.user_schema (Some (lit "User"))
  = lit "export interface User {" +++ LF
    +++ lit "  name: string;" +++ LF
    +++ lit "  age?: number;" +++ LF
    +++ lit "  tags: string[];" +++ LF
    +++ litq "  'home-address': {" +++ LF
    +++ lit "    city: string;" +++ LF
    +++ lit "  }; // where" +++ LF
    +++ lit "}".
Proof. reflexivity. Qed.

Lemma every_field_name_is_rendered_witness :
  In (lit "city") (ZodToTs.renderedKeys ReferenceEncoder.user_schema) /\
  includes (ZodToTs.zodSchemaToTypeScript ReferenceEncoder.user_schema (Some (lit "User")))
           (lit "city") = true.
Proof.
  assert (Hk : In (lit "city") (ZodToTs.renderedKeys ReferenceEncoder.user_schema))
    by (cbn; tauto).
  split; [exact Hk|].
  exact (proj2 (@every_field_name_is_rendered ReferenceEncoder.encoder
                  ReferenceEncoder.user_schema (Some (lit "User")) 0 (lit "city") Hk)).
Defined.

(** ** The tunnel and the stream validator together *)

Section TunnelAndStream.

Context `{schema : ZodSchema}.

(** X18. The stream validator and the tunnel judge a text alike: a push of
    the whole text on a fresh validator is [valid] exactly when
    [failureFromRaw] reports no failure, and otherwise its status, message,
    span and issues are those of the failure record. *)
Theorem push_agrees_with_failureFromRaw (raw : jsstring) :
  (failureFromRaw raw = None <->
   exists data jsonText, fst (push [] raw) = Valid raw data jsonText) /\
  (forall failure,
     failureFromRaw raw = Some failure ->
     fst (push [] raw) =
     match failure with
     | FailNoJson _ _ => NoJsonYet raw
     | FailInvalidJson message _ jsonText => InvalidJson raw message jsonText
     | FailSchema message _ jsonText issues => InvalidSchema raw message issues jsonText
     end).
Proof.
  unfold failureFromRaw, push. cbn [app].
  destruct (extractAndParseJson raw) as [t v|[] msg t].
  - destruct (safeParse v) as [d|issues]; cbn [fst].
    + split; [|discriminate]. split; [now exists d, t|reflexivity].
    + split; [|now intros failure [= <-]].
      split; [discriminate|]. now intros (d & t' & Hd).
  - cbn [fst]. split; [|now intros failure [= <-]].
    split; [discriminate|]. now intros (d & t' & Hd).
  - cbn [fst]. split; [|now intros failure [= <-]].
    split; [discriminate|]. now intros (d & t' & Hd).
Qed.

End TunnelAndStream.

Section FailureHistory.

Context `{schema : ZodSchema}.
Variable options : TunnelOptions.
Variables S E : Type.
Variable runner : TunnelRunner S E.

Lemma reached_add (j : nat) :
  forall k st sj,
    stateAt options runner j st = Some sj ->
    stateAt options runner (j + k) st = stateAt options runner k sj.
Proof.
  induction j as [|j IH]; intros k st sj Hj; cbn [stateAt Nat.add] in *.
  - now injection Hj as <-.
  - destruct (attemptBody options runner st) as [st1|]; [|discriminate]. now apply IH.
Qed.

Lemma reached_grows (k : nat) :
  forall st sk,
    stateAt options runner k st = Some sk ->
    exists failures entries,
      st_failures sk = st_failures st ++ failures /\
      st_log sk = st_log st ++ entries /\
      length failures = k /\ length entries = k.
Proof.
  induction k as [|k IH]; intros st sk Hk; cbn [stateAt] in Hk.
  - injection Hk as <-. exists [], []. now rewrite !app_nil_r.
  - destruct (attemptBody options runner st) as [st1|] eqn:Hb; [|discriminate].
    destruct (body_Continue options S E runner st st1 Hb) as (raw & f & _ & _ & ->).
    destruct (IH _ _ Hk) as (fs & es & Hf & Hl & Hfl & Hel).
    cbn [afterFailure afterInvocation st_failures st_log] in Hf, Hl.
    eexists (f :: fs), (_ :: es). rewrite Hf, Hl, <- !app_assoc. cbn [app length].
    repeat split; auto.
Qed.

(** X19. Failure records and log entries are only ever appended: the
    failures and the log at the start of a later attempt extend those at the
    start of an earlier one, by one failure and one entry per attempt in
    between. *)
Theorem failures_only_grow (s0 : S) (j k : nat) (sj sk : RunState S E) :
  (j <= k)%nat ->
  stateAt options runner j (initialState s0) = Some sj ->
  stateAt options runner k (initialState s0) = Some sk ->
  exists failures entries,
    st_failures sk = st_failures sj ++ failures /\
    st_log sk = st_log sj ++ entries /\
    length failures = (k - j)%nat /\
    length entries = (k - j)%nat.
Proof.
  intros Hjk Hj Hk. replace k with (j + (k - j))%nat in Hk by lia.
  rewrite (reached_add j (k - j) _ sj Hj) in Hk.
  exact (reached_grows (k - j) sj sk Hk).
Qed.

End FailureHistory.

(** Between the first and the third attempt of a run without JSON. *)
Lemma failures_only_grow_witness :
  let options := withOptions (Some 2) None in
  exists sj sk failures,
    (1 <= 2)%nat /\
    stateAt options neverJson 1 (initialState tt) = Some sj /\
    stateAt options neverJson 2 (initialState tt) = Some sk /\
    st_failures sk = st_failures sj ++ failures /\
    length failures = 1%nat.
Proof.
  cbv zeta.
  destruct (stateAt (withOptions (Some 2) None) neverJson 1 (initialState tt))
    as [sj|] eqn:Hj; [|vm_compute in Hj; discriminate].
  destruct (stateAt (withOptions (Some 2) None) neverJson 2 (initialState tt))
    as [sk|] eqn:Hk; [|vm_compute in Hk; discriminate].
  destruct (@failures_only_grow Reference.decoder Reference.objectA
              (withOptions (Some 2) None) unit jsstring neverJson tt 1 2 sj sk
              ltac:(lia) Hj Hk)
    as (failures & entries & Hf & _ & Hl & _).
  exists sj, sk, failures. repeat split; auto.
Defined.
